(** * Scalable Sustainability: cloud-free composite and GOES rendering

    A shallow embedding of the array expressions of
    [scalable-sustainability.ipynb]:

    - the Sentinel-2 cloud-free composite
      [data = stack.where(lambda x: x > 0).assign_coords(...)],
      [median = data.median(dim="time")];
    - the GOES true-colour rendering: the simulated [green] band and the
      gamma-corrected [rgb] array.

    Arrays are flat C-order buffers with a shape, as NumPy stores them.
    Pixel values of the composite are exact rationals extended with NaN
    (the no-data marker of xarray); the rendering, whose gamma stage is a
    real power, is carried out over the reals extended with NaN and the two
    infinities.  Both are exact-arithmetic readings of float64: rounding is
    not part of them.  Where rounding decides a statement, the expression
    is also given on binary64 values ([green_f64]). *)

From Stdlib Require Import PrimFloat.
From Stdlib Require Import String.
From Stdlib Require Import List Arith Lia ZArith QArith Bool.
From Stdlib Require Import Reals Psatz Sorted Permutation.
Import ListNotations.

Close Scope Q_scope.
Local Open Scope nat_scope.
Local Open Scope string_scope.

(** ** Part 1: the data model of the composite *)

(** A float64 sample: [None] is NaN, the no-data marker. *)
Definition sample : Type := option Q.
Definition NaN : sample := None.

(** An [xarray.DataArray]: named dimensions, their sizes, the labels of the
    [band] dimension, the [common_name] coordinate carried along [band],
    and the values in C order. *)
Record DataArray : Type := mkDataArray {
  dims : list string;
  shape : list nat;
  band : list string;
  common_name : list string;
  values : list sample
}.

Definition prod_shape (s : list nat) : nat := fold_right Nat.mul 1 s.

(** Flat C-order offset of a multi-index (Horner scheme over the shape). *)
Definition ravel (sh idx : list nat) : nat :=
  fold_left (fun acc ni => acc * fst ni + snd ni) (combine sh idx) 0.

(** [a.isel(...)] at a full multi-index. *)
Definition isel (a : DataArray) (idx : list nat) : sample :=
  nth (ravel (shape a) idx) (values a) NaN.

(** ** The no-data policy: [.where(lambda x: x > 0)] *)

(** [x > 0] on a float: false for NaN. *)
Definition gt0 (s : sample) : bool :=
  match s with
  | Some q => negb (Qle_bool q 0)
  | None => false
  end.

(** [where(cond)] with the default [other]: NaN where [cond] is false. *)
Definition where_sample (cond : sample -> bool) (s : sample) : sample :=
  if cond s then s else NaN.

Definition where_ (cond : sample -> bool) (a : DataArray) : DataArray :=
  {| dims := dims a;
     shape := shape a;
     band := band a;
     common_name := common_name a;
     values := map (where_sample cond) (values a) |}.

(** [.assign_coords(band=lambda x: x.common_name.rename("band"))] *)
Definition assign_coords_band (a : DataArray) : DataArray :=
  {| dims := dims a;
     shape := shape a;
     band := common_name a;
     common_name := common_name a;
     values := values a |}.

(** The notebook's [data], from the array [stackstac.stack] returns. *)
Definition data (stack : DataArray) : DataArray :=
  assign_coords_band (where_ gt0 stack).

(** ** The reduction: [.median(dim="time")] with [skipna] (nanmedian) *)

Definition valid_samples (l : list sample) : list Q :=
  flat_map (fun s => match s with Some q => [q] | None => [] end) l.

Fixpoint insert (x : Q) (l : list Q) : list Q :=
  match l with
  | [] => [x]
  | y :: t => if Qle_bool x y then x :: y :: t else y :: insert x t
  end.

Definition sort (l : list Q) : list Q := fold_right insert [] l.

(** Median of a sorted list: the middle element, or the mean of the two
    middle elements; NaN for the empty list. *)
Definition median_sorted (s : list Q) : sample :=
  match length s with
  | O => NaN
  | n =>
      if Nat.odd n
      then Some (nth (n / 2) s 0%Q)
      else Some ((nth (n / 2 - 1) s 0%Q + nth (n / 2) s 0%Q) / 2)%Q
  end.

Definition nanmedian (l : list sample) : sample :=
  median_sorted (sort (valid_samples l)).

Fixpoint index_of (d : string) (l : list string) : option nat :=
  match l with
  | [] => None
  | e :: t => if String.eqb d e then Some 0
              else option_map S (index_of d t)
  end.

Definition remove_nth {A : Type} (k : nat) (l : list A) : list A :=
  firstn k l ++ skipn (S k) l.

(** Reduce a C-order buffer of shape [sh] along axis [k] with [f]. *)
Definition reduce_axis (f : list sample -> sample) (k : nat)
    (sh : list nat) (v : list sample) : list sample :=
  let outer := prod_shape (firstn k sh) in
  let n := nth k sh 0 in
  let inner := prod_shape (skipn (S k) sh) in
  flat_map
    (fun o =>
       map (fun i =>
              f (map (fun t => nth ((o * n + t) * inner + i) v NaN)
                     (seq 0 n)))
           (seq 0 inner))
    (seq 0 outer).

(** [a.median(dim=d)]: [None] stands for the error xarray raises when the
    array has no dimension [d]. *)
Definition median (d : string) (a : DataArray) : option DataArray :=
  match index_of d (dims a) with
  | None => None
  | Some k =>
      Some {| dims := remove_nth k (dims a);
              shape := remove_nth k (shape a);
              band := if String.eqb d "band" then [] else band a;
              common_name :=
                if String.eqb d "band" then [] else common_name a;
              values := reduce_axis nanmedian k (shape a) (values a) |}
  end.

(** The composite of the notebook: the no-data policy, then the temporal
    median. *)
Definition compose (stack : DataArray) : option DataArray :=
  median "time" (data stack).

(** ** Raster stacks *)

Definition stack_dims : list string := ["time"; "band"; "y"; "x"].

(** The array [stackstac.stack] returns: [T] frames of [B] bands on a grid
    of [Y] rows and [X] columns. *)
Record RasterStack (a : DataArray) (T B Y X : nat) : Prop := {
  rs_dims : dims a = stack_dims;
  rs_shape : shape a = [T; B; Y; X];
  rs_band : length (band a) = B;
  rs_common_name : length (common_name a) = B;
  rs_values : length (values a) = T * B * Y * X
}.

(** The pixel series of a pixel-band: its samples over all time steps. *)
Definition series (a : DataArray) (b y x : nat) : list sample :=
  map (fun t => isel a [t; b; y; x]) (seq 0 (nth 0 (shape a) 0)).

(** A sample is valid when it survives the no-data policy. *)
Definition is_valid (s : sample) : bool := gt0 s.

(** Build a stack from frames given as flat [band, y, x] buffers. *)
Definition mk_stack (bands : list string) (Y X : nat)
    (frames : list (list sample)) : DataArray :=
  {| dims := stack_dims;
     shape := [length frames; length bands; Y; X];
     band := bands;
     common_name := bands;
     values := concat frames |}.

(** The example series of the specification at pixel (0,0), band "red":
    200, a masked sample, 210, 195, 400. *)
Definition example_stack : DataArray :=
  mk_stack ["red"] 1 1
    [[Some 200%Q]; [NaN]; [Some 210%Q]; [Some 195%Q]; [Some 400%Q]].

(** The same series with the second sample left as the raw value 5. *)
Definition example_stack_raw5 : DataArray :=
  mk_stack ["red"] 1 1
    [[Some 200%Q]; [Some 5%Q]; [Some 210%Q]; [Some 195%Q]; [Some 400%Q]].

(** The no-data policy read as a predicate: masked, or at most 0. *)
Definition is_nodata (s : sample) : bool :=
  match s with
  | Some q => Qle_bool q 0
  | None => true
  end.

(** The values of a series that are left once its no-data samples are
    deleted. *)
Definition kept (l : list sample) : list Q :=
  valid_samples (filter (fun s => negb (is_nodata s)) l).

(** The valid values of the pixel series of a pixel-band. *)
Definition valid_series (a : DataArray) (b y x : nat) : list Q :=
  kept (series a b y x).

Definition count (f : Q -> bool) (l : list Q) : nat := length (filter f l).

Definition Qltb (p q : Q) : bool := negb (Qle_bool q p).

(** A stack of one frame, one band and one pixel whose raster value is 0. *)
Definition single_frame_zero : DataArray :=
  mk_stack ["red"] 1 1 [[Some 0%Q]].

(** Two frames, two bands, one row, two columns. *)
Definition two_frames : DataArray :=
  mk_stack ["B04"; "B02"] 1 2
    [[Some 1%Q; Some 0%Q; Some 3%Q; NaN];
     [Some 5%Q; Some (-2)%Q; Some 3%Q; Some 7%Q]].

(** Two frames of one pixel read from the assets B04 and B02, whose
    common names are red and blue. *)
Definition sentinel_frames : DataArray :=
  {| dims := stack_dims;
     shape := [2; 2; 1; 1];
     band := ["B04"; "B02"];
     common_name := ["red"; "blue"];
     values := [Some 3%Q; Some 4%Q; Some 5%Q; Some 8%Q] |}.

(** Three frames of one pixel; two of the three valid samples are 7. *)
Definition three_frames : DataArray :=
  mk_stack ["red"] 1 1 [[Some 7%Q]; [Some 900%Q]; [Some 7%Q]].

(** ** Part 2: the GOES rendering *)

(** A float64 value of the rendering: a real, an infinity or NaN. *)
Inductive fval : Type :=
  | Fin (r : R)
  | PInf
  | NInf
  | FNaN.

(** One pixel of the GOES [data] array at one time step: the raster values
    of the three bands the notebook reads. *)
Record pixel : Type := mkPixel {
  red : R;
  nir09 : R;
  blue : R
}.

(** One time step of [data]: its pixels in [y, x] order. *)
Definition frame : Type := list pixel.

(** One pixel of an array whose bands are [["red"; "green"; "blue"]]. *)
Record rgb_px (A : Type) : Type := mkRGB {
  ch_red : A;
  ch_green : A;
  ch_blue : A
}.
Arguments mkRGB {A} _ _ _.
Arguments ch_red {A} _.
Arguments ch_green {A} _.
Arguments ch_blue {A} _.

Definition map_px {A B : Type} (f : A -> B) (p : rgb_px A) : rgb_px B :=
  mkRGB (f (ch_red p)) (f (ch_green p)) (f (ch_blue p)).

Definition px_values {A : Type} (p : rgb_px A) : list A :=
  [ch_red p; ch_green p; ch_blue p].

(** [γ = 2.2] *)
Definition gamma : R := 2.2%R.

(** The simulated green band. *)
Definition green (p : pixel) : R :=
  (0.45 * red p + 0.1 * nir09 p + 0.45 * blue p)%R.

(** The same expression on binary64 values, in the order NumPy evaluates
    it: the raster values are converted to float64 by the product with a
    Python float. *)
#[warnings="-inexact-float"]
Definition green_f64 (r n b : float) : float :=
  (0.45 * r + 0.1 * n + 0.45 * b)%float.

(** [xr.concat([data, green], dim="band").sel(band=["red","green","blue"])] *)
Definition concat_sel (f : frame) : list (rgb_px R) :=
  map (fun p => mkRGB (red p) (green p) (blue p)) f.

(** [rgb.max(dim=["band", "y", "x"])] at one time step; [None] is the
    error NumPy raises on an empty array. *)
Definition list_max (l : list R) : option R :=
  match l with
  | [] => None
  | x :: t => Some (fold_left Rmax t x)
  end.

Definition frame_max (c : list (rgb_px R)) : option R :=
  list_max (flat_map px_values c).

(** float64 division of finite values. *)
Definition fdiv (x m : R) : fval :=
  if Req_dec_T m 0 then
    if Req_dec_T x 0 then FNaN
    else if Rlt_dec 0 x then PInf else NInf
  else Fin (x / m).

(** float64 power [v ** e] for a positive exponent that is not an
    integer. *)
Definition fpow (v : fval) (e : R) : fval :=
  match v with
  | Fin x =>
      if Req_dec_T x 0 then Fin 0
      else if Rlt_dec 0 x then Fin (Rpower x e) else FNaN
  | PInf => PInf
  | NInf => PInf
  | FNaN => FNaN
  end.

(** [x > 0] and [x < 1] on a float: false for NaN. *)
Definition fgt0 (v : fval) : bool :=
  match v with
  | Fin x => if Rlt_dec 0 x then true else false
  | PInf => true
  | NInf => false
  | FNaN => false
  end.

Definition flt1 (v : fval) : bool :=
  match v with
  | Fin x => if Rlt_dec x 1 then true else false
  | PInf => false
  | NInf => true
  | FNaN => false
  end.

(** [where(cond, other)] on one value. *)
Definition where_other (cond : fval -> bool) (other : fval) (v : fval)
    : fval :=
  if cond v then v else other.

(** [.where(lambda x: x > 0, 0).where(lambda x: x < 1, 1)] *)
Definition clamp (v : fval) : fval :=
  where_other flt1 (Fin 1) (where_other fgt0 (Fin 0) v).

(** The gamma stage [rgb ** (1 / γ)]. *)
Definition gamma_stage (v : fval) : fval := fpow v (1 / gamma).

(** One value through division by the maximum, gamma and clamping. *)
Definition render_value (m x : R) : fval :=
  clamp (gamma_stage (fdiv x m)).

(** The notebook's [rgb] at one time step. *)
Definition rgb_frame (f : frame) : option (list (rgb_px fval)) :=
  let c := concat_sel f in
  match frame_max c with
  | None => None
  | Some m => Some (map (map_px (render_value m)) c)
  end.

(** The rendering transform as the specification words it: each channel
    is min-max normalised on its own, then gamma, then clamping. *)
Definition list_min (l : list R) : option R :=
  match l with
  | [] => None
  | x :: t => Some (fold_left Rmin t x)
  end.

Definition spec_channel (chan : list R) : option (list fval) :=
  match list_min chan, list_max chan with
  | Some lo, Some hi =>
      Some (map (fun x => clamp (gamma_stage (fdiv (x - lo) (hi - lo))))
                chan)
  | _, _ => None
  end.

Definition spec_true_color (f : frame)
    : option (list fval * list fval * list fval) :=
  let c := concat_sel f in
  match spec_channel (map ch_red c), spec_channel (map ch_green c),
        spec_channel (map ch_blue c) with
  | Some r, Some g, Some b => Some (r, g, b)
  | _, _, _ => None
  end.

(** The channels of [rgb_frame], one list per band. *)
Definition rgb_channels (f : frame)
    : option (list fval * list fval * list fval) :=
  option_map
    (fun l => (map ch_red l, map ch_green l, map ch_blue l))
    (rgb_frame f).

(** Two pixels of equal bands, of values 1 and 2. *)
Definition example_frame : frame :=
  [mkPixel 1 1 1; mkPixel 2 2 2].

(** A frame with a negative raster value. *)
Definition example_frame_neg : frame :=
  [mkPixel (-1) 4 2].

(** ** Part 3: monthly composites *)

(** Equality of samples up to equality of rationals. *)
Definition sample_equiv (s1 s2 : sample) : Prop :=
  match s1, s2 with
  | Some p, Some q => (p == q)%Q
  | None, None => True
  | _, _ => False
  end.

(** The distinct labels of a group variable, in increasing order. *)
Fixpoint insert_unique (m : nat) (l : list nat) : list nat :=
  match l with
  | [] => [m]
  | h :: t =>
      if (m <? h)%nat then m :: h :: t
      else if (m =? h)%nat then h :: t
      else h :: insert_unique m t
  end.

Definition unique_sorted (l : list nat) : list nat :=
  fold_right insert_unique [] l.

(** The positions along the grouped dimension whose label is [m]. *)
Definition group_indices (labels : list nat) (m : nat) : list nat :=
  filter (fun t => (nth t labels 0 =? m)%nat) (seq 0 (length labels)).

(** Reduce a C-order buffer of shape [sh] along axis [k] with [f], once
    per group of positions; the groups take the place of axis [k]. *)
Definition groupby_reduce_axis (f : list sample -> sample) (k : nat)
    (sh : list nat) (v : list sample) (groups : list (list nat))
    : list sample :=
  let outer := prod_shape (firstn k sh) in
  let n := nth k sh 0 in
  let inner := prod_shape (skipn (S k) sh) in
  flat_map
    (fun o =>
       flat_map
         (fun idxs =>
            map (fun i =>
                   f (map (fun t => nth ((o * n + t) * inner + i) v NaN)
                          idxs))
                (seq 0 inner))
         groups)
    (seq 0 outer).

Definition replace_nth {A : Type} (k : nat) (x : A) (l : list A) : list A :=
  firstn k l ++ x :: skipn (S k) l.

(** [a.groupby(labels).median()], where [labels] holds one label per
    position of dimension [d] and [newd] names the group variable.  The
    result carries the sorted distinct labels as its new coordinate.
    [None] stands for the errors xarray raises: no dimension [d], or no
    group at all. *)
Definition groupby_median (d newd : string) (labels : list nat)
    (a : DataArray) : option (list nat * DataArray) :=
  match index_of d (dims a) with
  | None => None
  | Some k =>
      if negb (length labels =? nth k (shape a) 0)%nat then None
      else
        match unique_sorted labels with
        | [] => None
        | ms =>
            Some (ms,
                  {| dims := replace_nth k newd (dims a);
                     shape := replace_nth k (length ms) (shape a);
                     band := band a;
                     common_name := common_name a;
                     values :=
                       groupby_reduce_axis nanmedian k (shape a) (values a)
                         (map (group_indices labels) ms) |})
        end
  end.

(** The notebook's [monthly], from the array [stackstac.stack] returns
    and the values of its virtual coordinate [time.month]. *)
Definition monthly (months : list nat) (stack : DataArray)
    : option (list nat * DataArray) :=
  groupby_median "time" "month" months (data stack).

(** ** Part 4: the storm track and the GOES items *)

(** [numpy.argmax] of a boolean array: the first position of the greatest
    value; [None] is the error raised on an empty array. *)
Fixpoint argmax_from (best_i : nat) (best : bool) (i : nat) (l : list bool)
    : nat :=
  match l with
  | [] => best_i
  | x :: t =>
      if negb best && x then argmax_from i x (S i) t
      else argmax_from best_i best (S i) t
  end.

Definition argmax (l : list bool) : option nat :=
  match l with
  | [] => None
  | x :: t => Some (argmax_from 0 x 1 t)
  end.

(** [storm_loc = (ds.sid == STORM_ID).argmax().item()] *)
Definition storm_loc (sid : list string) (STORM_ID : string) : option nat :=
  argmax (map (fun s => String.eqb s STORM_ID) sid).

(** [sorted(items, key=key)]: Python's sort is stable. *)
Fixpoint insert_by {A : Type} (key : A -> Z) (x : A) (l : list A) : list A :=
  match l with
  | [] => [x]
  | y :: t =>
      if (key x <=? key y)%Z then x :: y :: t else y :: insert_by key x t
  end.

Definition sorted {A : Type} (key : A -> Z) (l : list A) : list A :=
  fold_right (insert_by key) [] l.

(** A signed STAC item, reduced to what the notebook reads of it: its
    identifier and its [datetime] as a time stamp. *)
Record item : Type := mkItem {
  item_id : string;
  datetime : Z
}.

(** [signed_items = sorted([sign(item) for item in items],
    key=lambda x: x.datetime)]; signing leaves the [datetime] as it is. *)
Definition signed_items (items : list item) : list item :=
  sorted datetime items.

(** The [time] coordinate: [[x.datetime for x in signed_items]]. *)
Definition time_coord (items : list item) : list Z :=
  map datetime (signed_items items).

(** A frame whose raster values are all multiplied by [k]. *)
Definition scale_frame (k : R) (f : frame) : frame :=
  map (fun p => mkPixel (k * red p) (k * nir09 p) (k * blue p)) f.

(** * Properties *)

(** ** Sorting *)

Lemma Qltb_lt (p q : Q) : Qltb p q = true <-> (p < q)%Q.
Proof.
  unfold Qltb. rewrite negb_true_iff. split; intro H.
  - apply Qnot_le_lt. intro Hle. apply Qle_bool_iff in Hle. congruence.
  - destruct (Qle_bool q p) eqn:E; [|reflexivity].
    apply Qle_bool_iff in E. lra.
Qed.

Lemma insert_length (x : Q) (l : list Q) :
  length (insert x l) = S (length l).
Proof.
  induction l as [|y t IH]; simpl; [reflexivity|].
  destruct (Qle_bool x y); simpl; [reflexivity|now rewrite IH].
Qed.

Lemma sort_length (l : list Q) : length (sort l) = length l.
Proof.
  induction l as [|x t IH]; simpl; [reflexivity|].
  now rewrite insert_length, IH.
Qed.

Lemma count_insert (f : Q -> bool) (x : Q) (l : list Q) :
  count f (insert x l) = count f (x :: l).
Proof.
  unfold count. induction l as [|y t IH]; [reflexivity|].
  simpl insert. destruct (Qle_bool x y); [reflexivity|].
  simpl in *. destruct (f y), (f x); simpl in *; lia.
Qed.

Lemma count_sort (f : Q -> bool) (l : list Q) : count f (sort l) = count f l.
Proof.
  induction l as [|x t IH]; [reflexivity|].
  simpl sort. rewrite count_insert. unfold count in *. simpl.
  destruct (f x); simpl; now rewrite IH.
Qed.

Lemma insert_Forall (P : Q -> Prop) (x : Q) (l : list Q) :
  P x -> Forall P l -> Forall P (insert x l).
Proof.
  intros Hx Hl. induction Hl as [|y t Hy Ht IH]; simpl.
  - now constructor.
  - destruct (Qle_bool x y); repeat constructor; assumption.
Qed.

Lemma insert_sorted (x : Q) (l : list Q) :
  StronglySorted Qle l -> StronglySorted Qle (insert x l).
Proof.
  induction 1 as [|y t Hs IH Hall]; simpl.
  - repeat constructor.
  - destruct (Qle_bool x y) eqn:E.
    + apply Qle_bool_iff in E. constructor.
      * now constructor.
      * constructor; [assumption|].
        eapply Forall_impl; [|exact Hall]. intros z Hz. simpl in Hz. lra.
    + assert (Hyx : (y <= x)%Q).
      { destruct (Qlt_le_dec y x) as [Hlt|Hle]; [lra|].
        apply Qle_bool_iff in Hle. congruence. }
      constructor; [assumption|].
      apply insert_Forall; assumption.
Qed.

Lemma sort_sorted (l : list Q) : StronglySorted Qle (sort l).
Proof.
  induction l as [|x t IH]; simpl; [constructor|].
  now apply insert_sorted.
Qed.

(** In a sorted list, an element below [v] at index [k] has [k] elements
    below [v] before it. *)
Lemma sorted_count_below (v : Q) (s : list Q) :
  StronglySorted Qle s ->
  forall k, k < length s -> (nth k s 0 < v)%Q ->
  k + 1 <= count (fun q => Qltb q v) s.
Proof.
  unfold count. induction 1 as [|h t Hs IH Hall]; intros k Hk Hlt.
  - simpl in Hk. lia.
  - destruct k as [|k]; simpl in *.
    + apply Qltb_lt in Hlt. rewrite Hlt. simpl. lia.
    + assert (Hh : (h < v)%Q).
      { rewrite Forall_forall in Hall.
        specialize (Hall (nth k t 0%Q) (@nth_In _ k t 0%Q ltac:(lia))).
        cbv beta in Hall. lra. }
      apply Qltb_lt in Hh. rewrite Hh. simpl.
      specialize (IH k ltac:(lia) Hlt). lia.
Qed.

(** In a sorted list, an element above [v] at index [k] is followed only
    by elements above [v]. *)
Lemma sorted_count_above (v : Q) (s : list Q) :
  StronglySorted Qle s ->
  forall k, k < length s -> (v < nth k s 0)%Q ->
  length s - k <= count (fun q => Qltb v q) s.
Proof.
  unfold count. induction 1 as [|h t Hs IH Hall]; intros k Hk Hlt.
  - simpl in Hk. lia.
  - destruct k as [|k]; simpl in *.
    + assert (Hall' : Forall (fun q => Qltb v q = true) t).
      { eapply Forall_impl; [|exact Hall]. intros z Hz. simpl in Hz.
        apply Qltb_lt. lra. }
      apply Qltb_lt in Hlt. rewrite Hlt. simpl.
      rewrite forallb_filter_id.
      * lia.
      * apply forallb_forall. rewrite Forall_forall in Hall'. exact Hall'.
    + specialize (IH k ltac:(lia) Hlt).
      destruct (Qltb v h); simpl; lia.
Qed.

(** Every element is below, equal to or above [v]. *)
Lemma count_trichotomy (v : Q) (l : list Q) :
  count (fun q => Qltb q v) l + count (Qeq_bool v) l
  + count (fun q => Qltb v q) l = length l.
Proof.
  unfold count. induction l as [|h t IH]; [reflexivity|].
  simpl.
  destruct (Qltb h v) eqn:E1, (Qeq_bool v h) eqn:E2, (Qltb v h) eqn:E3;
    simpl; try lia;
    try apply Qltb_lt in E1; try apply Qltb_lt in E3;
    try apply Qeq_bool_iff in E2; try lra.
  exfalso.
  assert (~ (h < v)%Q) by (intro Hc; apply Qltb_lt in Hc; congruence).
  assert (~ (v < h)%Q) by (intro Hc; apply Qltb_lt in Hc; congruence).
  assert (Heq : (v == h)%Q) by lra.
  apply Qeq_bool_iff in Heq. congruence.
Qed.

(** ** The median of a pixel series *)

Lemma median_sorted_nan_iff (s : list Q) : median_sorted s = NaN <-> s = [].
Proof.
  unfold median_sorted, NaN. destruct s as [|h t].
  - simpl. tauto.
  - change (length (h :: t)) with (S (length t)). cbv iota.
    destruct (Nat.odd (S (length t))); split; intro H; discriminate.
Qed.

Lemma nanmedian_nan_iff (l : list sample) :
  nanmedian l = NaN <-> valid_samples l = [].
Proof.
  unfold nanmedian. rewrite median_sorted_nan_iff.
  split; intro H.
  - apply length_zero_iff_nil. rewrite <- sort_length, H. reflexivity.
  - rewrite H. reflexivity.
Qed.

Lemma valid_samples_where_nil (l : list sample) :
  valid_samples (map (where_sample gt0) l) = [] <->
  Forall (fun s => is_valid s = false) l.
Proof.
  unfold valid_samples, is_valid, where_sample.
  induction l as [|s t IH]; simpl.
  - split; [constructor|reflexivity].
  - destruct s as [q|]; simpl.
    + destruct (negb (Qle_bool q 0)) eqn:E; simpl.
      * split; [discriminate|]. intro H.
        inversion H as [|? ? Hq Ht]. simpl in Hq. congruence.
      * rewrite IH. split; intro H.
        -- now constructor.
        -- now inversion H.
    + rewrite IH. split; intro H.
      * now constructor.
      * now inversion H.
Qed.

Lemma valid_samples_where_gt0 (l : list sample) :
  Forall (fun q => (0 < q)%Q) (valid_samples (map (where_sample gt0) l)).
Proof.
  unfold valid_samples, where_sample.
  induction l as [|s t IH]; simpl; [constructor|].
  destruct s as [q|]; simpl; [|exact IH].
  destruct (negb (Qle_bool q 0)) eqn:E; simpl; [|exact IH].
  constructor; [|exact IH]. apply (Qltb_lt 0 q). exact E.
Qed.

Lemma nanmedian_single (s : sample) : nanmedian [s] = s.
Proof. destruct s as [q|]; reflexivity. Qed.

Lemma odd_half (n : nat) : Nat.odd n = true -> n = 2 * (n / 2) + 1.
Proof.
  intro H. rewrite <- Nat.div2_div.
  pose proof (Nat.div2_odd n) as E. rewrite H in E. simpl in E. lia.
Qed.

Lemma even_half (n : nat) : Nat.odd n = false -> n = 2 * (n / 2).
Proof.
  intro H. rewrite <- Nat.div2_div.
  pose proof (Nat.div2_odd n) as E. rewrite H in E. simpl in E. lia.
Qed.

(** An index past the elements below [v] and before the elements above
    [v] holds a value equal to [v]. *)
Lemma sorted_nth_between (v : Q) (s : list Q) (k : nat) :
  StronglySorted Qle s ->
  count (fun q => Qltb q v) s <= k ->
  k + count (fun q => Qltb v q) s < length s ->
  (nth k s 0 == v)%Q.
Proof.
  intros Hs Hlo Hhi.
  assert (Hk : k < length s) by lia.
  destruct (Qlt_le_dec (nth k s 0%Q) v) as [Hlt|Hge].
  - pose proof (sorted_count_below v s Hs k Hk Hlt). lia.
  - destruct (Qlt_le_dec v (nth k s 0%Q)) as [Hgt|Hle].
    + pose proof (sorted_count_above v s Hs k Hk Hgt). lia.
    + lra.
Qed.

(** The median of a sorted list is the value a strict majority of its
    elements share. *)
Lemma median_sorted_majority (v : Q) (s : list Q) :
  StronglySorted Qle s ->
  length s < 2 * count (Qeq_bool v) s ->
  exists m, median_sorted s = Some m /\ (m == v)%Q.
Proof.
  intros Hs Hmaj.
  pose proof (count_trichotomy v s) as Htri.
  set (lo := count (fun q => Qltb q v) s) in *.
  set (hi := count (fun q => Qltb v q) s) in *.
  unfold median_sorted.
  destruct (length s) as [|n'] eqn:En; [lia|].
  rewrite <- En. set (n := length s) in *.
  destruct (Nat.odd n) eqn:Eodd.
  - apply odd_half in Eodd.
    eexists; split; [reflexivity|].
    apply sorted_nth_between; fold lo hi n; [assumption|lia|lia].
  - apply even_half in Eodd.
    eexists; split; [reflexivity|].
    assert (H1 : (nth (n / 2 - 1) s 0 == v)%Q)
      by (apply sorted_nth_between; fold lo hi n; [assumption|lia|lia]).
    assert (H2 : (nth (n / 2) s 0 == v)%Q)
      by (apply sorted_nth_between; fold lo hi n; [assumption|lia|lia]).
    rewrite H1, H2. field.
Qed.

Lemma nanmedian_majority (v : Q) (l : list sample) :
  length (valid_samples l) < 2 * count (Qeq_bool v) (valid_samples l) ->
  exists m, nanmedian l = Some m /\ (m == v)%Q.
Proof.
  intro H. unfold nanmedian.
  apply median_sorted_majority.
  - apply sort_sorted.
  - now rewrite sort_length, count_sort.
Qed.

(** ** The composite of a raster stack *)

Lemma nth_map_seq {A : Type} (F : nat -> A) (n i : nat) (d : A) :
  i < n -> nth i (map F (seq 0 n)) d = F i.
Proof.
  intro H. rewrite (nth_indep _ d (F 0)) by now rewrite length_map, length_seq.
  rewrite map_nth, seq_nth by assumption. reflexivity.
Qed.

Lemma offset_bound (B Y X b y x : nat) :
  b < B -> y < Y -> x < X -> (b * Y + y) * X + x < B * Y * X.
Proof.
  intros Hb Hy Hx.
  assert (H1 : (b + 1) * Y <= B * Y) by (apply Nat.mul_le_mono_r; lia).
  assert (H2 : (b * Y + y + 1) * X <= B * Y * X)
    by (apply Nat.mul_le_mono_r; lia).
  lia.
Qed.

(** The composite of a stack, value by value. *)
Lemma compose_eq (a : DataArray) (T B Y X : nat) :
  RasterStack a T B Y X ->
  compose a =
  Some {| dims := ["band"; "y"; "x"];
          shape := [B; Y; X];
          band := common_name a;
          common_name := common_name a;
          values :=
            map (fun i =>
                   nanmedian
                     (map (fun t =>
                             where_sample gt0
                               (nth (t * (B * Y * X) + i) (values a) NaN))
                          (seq 0 T)))
                (seq 0 (B * Y * X)) |}.
Proof.
  intros [Hd Hs _ _ _].
  unfold compose, median, data, assign_coords_band, where_. simpl.
  rewrite Hd, Hs. simpl. unfold reduce_axis, remove_nth. simpl.
  rewrite app_nil_r.
  replace (B * (Y * (X * 1))) with (B * Y * X) by lia.
  do 2 f_equal. apply map_ext. intro i. f_equal.
  apply map_ext. intro t.
  change NaN with (where_sample gt0 NaN) at 1. rewrite map_nth.
  reflexivity.
Qed.

Lemma isel_compose (a c : DataArray) (T B Y X b y x : nat) :
  RasterStack a T B Y X -> compose a = Some c ->
  b < B -> y < Y -> x < X ->
  isel c [b; y; x] = nanmedian (map (where_sample gt0) (series a b y x)).
Proof.
  intros Hrs Hc Hb Hy Hx.
  rewrite (compose_eq a T B Y X Hrs) in Hc. injection Hc as <-.
  unfold isel, series. simpl shape. rewrite (rs_shape _ _ _ _ _ Hrs).
  unfold ravel. simpl.
  rewrite nth_map_seq by (apply offset_bound; assumption).
  rewrite map_map. f_equal. apply map_ext. intro t.
  unfold isel. rewrite (rs_shape _ _ _ _ _ Hrs). unfold ravel. simpl.
  do 2 f_equal. lia.
Qed.

(** Every offset of the composite is the offset of a pixel-band. *)
Lemma offset_inv (B Y X i : nat) :
  i < B * Y * X ->
  exists b y x, b < B /\ y < Y /\ x < X /\ i = (b * Y + y) * X + x.
Proof.
  intro Hi.
  assert (HX : X <> 0) by (intro; subst; lia).
  assert (HY : Y <> 0) by (intro; subst; lia).
  exists (i / X / Y), ((i / X) mod Y), (i mod X).
  pose proof (Nat.div_mod_eq i X) as E1.
  pose proof (Nat.div_mod_eq (i / X) Y) as E2.
  pose proof (Nat.mod_upper_bound i X HX) as U1.
  pose proof (Nat.mod_upper_bound (i / X) Y HY) as U2.
  repeat split; try assumption.
  - apply Nat.Div0.div_lt_upper_bound. apply Nat.Div0.div_lt_upper_bound. lia.
  - lia.
Qed.

Lemma valid_samples_where_kept (l : list sample) :
  valid_samples (map (where_sample gt0) l) = kept l.
Proof.
  unfold kept, valid_samples, where_sample.
  induction l as [|s t IH]; simpl; [reflexivity|].
  destruct s as [q|]; simpl; [|exact IH].
  destruct (Qle_bool q 0); simpl; now rewrite IH.
Qed.

Lemma Forall_series (P : sample -> Prop) (a : DataArray)
    (T B Y X b y x : nat) :
  RasterStack a T B Y X ->
  Forall P (series a b y x) <-> forall t, t < T -> P (isel a [t; b; y; x]).
Proof.
  intro Hrs. unfold series. rewrite (rs_shape _ _ _ _ _ Hrs). simpl nth.
  rewrite Forall_map, Forall_forall. split; intros H t Ht.
  - apply H. apply in_seq. lia.
  - apply H. apply in_seq in Ht. lia.
Qed.

Lemma mk_stack_RasterStack (bands : list string) (Y X : nat)
    (frames : list (list sample)) :
  Forall (fun f => length f = length bands * Y * X) frames ->
  RasterStack (mk_stack bands Y X frames)
    (length frames) (length bands) Y X.
Proof.
  intro H. constructor; try reflexivity. simpl.
  induction H as [|f t Hf Ht IH]; simpl; [reflexivity|].
  rewrite length_app, IH, Hf. lia.
Qed.

(** ** The claims on the composite *)

(** C1: a pixel-band of the composite is the no-data marker exactly when
    its series has no valid sample in any frame; so a stack in which every
    pixel-band has a valid sample gives a composite without no-data, and a
    pixel-band without valid samples gives the marker, not an error. *)
Theorem compose_nodata_iff_no_valid (a : DataArray) (T B Y X : nat) :
  RasterStack a T B Y X ->
  exists c,
    compose a = Some c /\
    (forall b y x, b < B -> y < Y -> x < X ->
       (isel c [b; y; x] = NaN <->
        forall t, t < T -> is_valid (isel a [t; b; y; x]) = false)) /\
    ((forall b y x, b < B -> y < Y -> x < X ->
        exists t, t < T /\ is_valid (isel a [t; b; y; x]) = true) ->
     Forall (fun s => s <> NaN) (values c)).
Proof.
  intro Hrs. pose proof (compose_eq a T B Y X Hrs) as Hc.
  match type of Hc with _ = Some ?c0 => remember c0 as c eqn:Ec end.
  exists c. split; [exact Hc|].
  assert (Hiff : forall b y x, b < B -> y < Y -> x < X ->
            (isel c [b; y; x] = NaN <->
             forall t, t < T -> is_valid (isel a [t; b; y; x]) = false)).
  { intros b y x Hb Hy Hx.
    rewrite (isel_compose a c T B Y X b y x Hrs Hc Hb Hy Hx).
    rewrite nanmedian_nan_iff, valid_samples_where_nil.
    apply (Forall_series (fun s => is_valid s = false)
             a T B Y X b y x Hrs). }
  split; [exact Hiff|].
  intro Hall. apply Forall_nth. intros i d Hi.
  assert (Hlen : length (values c) = B * Y * X)
    by (subst c; simpl; now rewrite length_map, length_seq).
  rewrite Hlen in Hi.
  destruct (offset_inv B Y X i Hi) as (b & y & x & Hb & Hy & Hx & ->).
  rewrite (nth_indep _ d NaN) by lia.
  intro Hnan.
  destruct (Hall b y x Hb Hy Hx) as (t & Ht & Hv).
  assert (Hf : is_valid (isel a [t; b; y; x]) = false).
  { apply (proj1 (Hiff b y x Hb Hy Hx)); [|exact Ht].
    unfold isel, ravel. subst c. simpl. simpl in Hnan. exact Hnan. }
  congruence.
Qed.

Lemma compose_nodata_iff_no_valid_witness :
  exists c,
    compose two_frames = Some c /\
    (forall b y x, b < 2 -> y < 1 -> x < 2 ->
       (isel c [b; y; x] = NaN <->
        forall t, t < 2 -> is_valid (isel two_frames [t; b; y; x]) = false))
    /\
    ((forall b y x, b < 2 -> y < 1 -> x < 2 ->
        exists t, t < 2 /\ is_valid (isel two_frames [t; b; y; x]) = true) ->
     Forall (fun s => s <> NaN) (values c)).
Proof.
  apply (compose_nodata_iff_no_valid two_frames 2 2 1 2).
  apply (mk_stack_RasterStack ["B04"; "B02"] 1 2).
  repeat constructor.
Defined.

(** C2: when strictly more than half of the valid samples of a pixel-band
    equal [v], whatever the other samples are, the composite at that
    pixel-band is a value equal to [v]. *)
Theorem compose_majority_value (a : DataArray) (T B Y X b y x : nat)
    (v : Q) :
  RasterStack a T B Y X ->
  b < B -> y < Y -> x < X ->
  length (valid_series a b y x)
    < 2 * count (Qeq_bool v) (valid_series a b y x) ->
  exists c m,
    compose a = Some c /\ isel c [b; y; x] = Some m /\ (m == v)%Q.
Proof.
  intros Hrs Hb Hy Hx Hmaj.
  pose proof (compose_eq a T B Y X Hrs) as Hc.
  match type of Hc with _ = Some ?c0 => remember c0 as c eqn:Ec end.
  destruct (nanmedian_majority v (map (where_sample gt0) (series a b y x)))
    as (m & Hm & Hv).
  { rewrite valid_samples_where_kept. exact Hmaj. }
  exists c, m. split; [exact Hc|]. split; [|exact Hv].
  rewrite (isel_compose a c T B Y X b y x Hrs Hc Hb Hy Hx). exact Hm.
Qed.

Lemma compose_majority_value_witness :
  exists c m,
    compose three_frames = Some c /\ isel c [0; 0; 0] = Some m /\
    (m == 7)%Q.
Proof.
  apply (compose_majority_value three_frames 3 1 1 1 0 0 0 7%Q).
  - apply (mk_stack_RasterStack ["red"] 1 1). repeat constructor.
  - lia.
  - lia.
  - lia.
  - vm_compute. lia.
Defined.

(** C3, as the code has it: on the example series 200, masked, 210, 195,
    400 the composite at pixel (0,0) of band "red" is the median of 200,
    210, 195 and 400, which is 205. *)
Theorem compose_example_value :
  exists c m,
    compose example_stack = Some c /\ isel c [0; 0; 0] = Some m /\
    (m == 205)%Q.
Proof.
  eexists. eexists. split; [reflexivity|]. split; [reflexivity|].
  reflexivity.
Qed.

(** C3, as the claim words it: the composite of the example is not
    202.5, whether the flagged sample is masked or left as the raw value
    5. *)
Lemma compose_example_not_202_5 :
  ~ (exists c m,
       compose example_stack = Some c /\ isel c [0; 0; 0] = Some m /\
       (m == 2025 # 10)%Q) /\
  ~ (exists c m,
       compose example_stack_raw5 = Some c /\ isel c [0; 0; 0] = Some m /\
       (m == 2025 # 10)%Q).
Proof.
  split; intros (c & m & Hc & Hm & Hv);
    vm_compute in Hc; injection Hc as <-;
    vm_compute in Hm; injection Hm as <-;
    vm_compute in Hv; discriminate.
Qed.

(** If the second sample were not masked but the raw value 5, which the
    policy [x > 0] keeps, the median would be 200. *)
Example compose_example_raw5 :
  exists c m,
    compose example_stack_raw5 = Some c /\ isel c [0; 0; 0] = Some m /\
    (m == 200)%Q.
Proof.
  eexists. eexists. split; [reflexivity|]. split; [reflexivity|].
  reflexivity.
Qed.

(** C4, as the code has it: the composite of a stack keeps the grid of
    the frames and the number of bands and has no time dimension; its
    bands are labelled with the common names of the stack, in the order of
    the stack's bands, since [data] replaces the band labels by the common
    names before the median is taken. *)
Theorem compose_shape (a : DataArray) (T B Y X : nat) :
  RasterStack a T B Y X ->
  exists c,
    compose a = Some c /\
    dims c = ["band"; "y"; "x"] /\
    shape c = [B; Y; X] /\
    band c = common_name a /\
    common_name c = common_name a /\
    length (band c) = length (band a) /\
    length (values c) = B * Y * X /\
    ~ In "time" (dims c).
Proof.
  intro Hrs. pose proof (compose_eq a T B Y X Hrs) as Hc.
  eexists. split; [exact Hc|]. simpl.
  repeat split.
  - rewrite (rs_common_name _ _ _ _ _ Hrs). symmetry.
    apply (rs_band _ _ _ _ _ Hrs).
  - now rewrite length_map, length_seq.
  - intros [H|[H|[H|[]]]]; discriminate.
Qed.

Lemma compose_shape_witness :
  exists c,
    compose sentinel_frames = Some c /\
    dims c = ["band"; "y"; "x"] /\
    shape c = [2; 1; 1] /\
    band c = common_name sentinel_frames /\
    common_name c = common_name sentinel_frames /\
    length (band c) = length (band sentinel_frames) /\
    length (values c) = 2 * 1 * 1 /\
    ~ In "time" (dims c).
Proof.
  apply (compose_shape sentinel_frames 2 2 1 1).
  constructor; reflexivity.
Defined.

(** C4, as the claim words it: the band labels of the composite are not
    those of the input stack.  A stack whose bands are labelled B04 and
    B02 gives a composite whose bands are labelled red and blue. *)
Lemma compose_band_relabelled :
  exists c,
    compose sentinel_frames = Some c /\
    band sentinel_frames = ["B04"; "B02"] /\
    band c = ["red"; "blue"] /\
    band c <> band sentinel_frames.
Proof.
  eexists. split; [reflexivity|]. split; [reflexivity|].
  split; [reflexivity|]. discriminate.
Qed.

(** C5: samples that are masked or at most 0 are deleted from the series
    before the median is taken: the composite at a pixel-band is the
    median of the sorted values that are left. *)
Theorem compose_discards_nodata (a : DataArray) (T B Y X : nat) :
  RasterStack a T B Y X ->
  exists c,
    compose a = Some c /\
    forall b y x, b < B -> y < Y -> x < X ->
      isel c [b; y; x] = median_sorted (sort (kept (series a b y x))) /\
      Forall (fun q => (0 < q)%Q) (kept (series a b y x)).
Proof.
  intro Hrs. pose proof (compose_eq a T B Y X Hrs) as Hc.
  match type of Hc with _ = Some ?c0 => remember c0 as c eqn:Ec end.
  exists c. split; [exact Hc|].
  intros b y x Hb Hy Hx. split.
  - rewrite (isel_compose a c T B Y X b y x Hrs Hc Hb Hy Hx).
    unfold nanmedian. now rewrite valid_samples_where_kept.
  - rewrite <- valid_samples_where_kept. apply valid_samples_where_gt0.
Qed.

Lemma compose_discards_nodata_witness :
  exists c,
    compose two_frames = Some c /\
    forall b y x, b < 2 -> y < 1 -> x < 2 ->
      isel c [b; y; x]
      = median_sorted (sort (kept (series two_frames b y x))) /\
      Forall (fun q => (0 < q)%Q) (kept (series two_frames b y x)).
Proof.
  apply (compose_discards_nodata two_frames 2 2 1 2).
  apply (mk_stack_RasterStack ["B04"; "B02"] 1 2).
  repeat constructor.
Defined.

(** C6, as the code has it: the composite of a stack of one frame holds,
    at every pixel-band, the sample of the frame when that sample is valid
    and the no-data marker when it is masked or at most 0. *)
Theorem compose_single_frame (a : DataArray) (B Y X : nat) :
  RasterStack a 1 B Y X ->
  exists c,
    compose a = Some c /\
    values c = map (where_sample gt0) (values a) /\
    forall b y x, b < B -> y < Y -> x < X ->
      (is_valid (isel a [0; b; y; x]) = true ->
       isel c [b; y; x] = isel a [0; b; y; x]) /\
      (is_valid (isel a [0; b; y; x]) = false ->
       isel c [b; y; x] = NaN).
Proof.
  intro Hrs. pose proof (compose_eq a 1 B Y X Hrs) as Hc.
  match type of Hc with _ = Some ?c0 => remember c0 as c eqn:Ec end.
  exists c. split; [exact Hc|]. split.
  - pose proof (rs_values _ _ _ _ _ Hrs) as Hlen.
    subst c. simpl values.
    apply (nth_ext _ _ NaN NaN).
    + rewrite !length_map, length_seq. lia.
    + intros i Hi. rewrite length_map, length_seq in Hi.
      rewrite nth_map_seq by exact Hi. simpl map.
      rewrite nanmedian_single.
      change NaN with (where_sample gt0 NaN) at 2. rewrite map_nth.
      reflexivity.
  - intros b y x Hb Hy Hx.
    rewrite (isel_compose a c 1 B Y X b y x Hrs Hc Hb Hy Hx).
    unfold series. rewrite (rs_shape _ _ _ _ _ Hrs). simpl map.
    rewrite nanmedian_single. unfold where_sample, is_valid.
    split; intros ->; reflexivity.
Qed.

Lemma compose_single_frame_witness :
  exists c,
    compose single_frame_zero = Some c /\
    values c = map (where_sample gt0) (values single_frame_zero) /\
    forall b y x, b < 1 -> y < 1 -> x < 1 ->
      (is_valid (isel single_frame_zero [0; b; y; x]) = true ->
       isel c [b; y; x] = isel single_frame_zero [0; b; y; x]) /\
      (is_valid (isel single_frame_zero [0; b; y; x]) = false ->
       isel c [b; y; x] = NaN).
Proof.
  apply (compose_single_frame single_frame_zero 1 1 1).
  apply (mk_stack_RasterStack ["red"] 1 1).
  repeat constructor.
Defined.

(** C6, as the claim words it: a frame whose raster value is 0 does not
    come back unchanged; the composite holds the no-data marker there. *)
Lemma compose_single_frame_changed :
  exists c,
    compose single_frame_zero = Some c /\
    isel single_frame_zero [0; 0; 0; 0] = Some 0%Q /\
    isel c [0; 0; 0] = NaN /\
    isel c [0; 0; 0] <> isel single_frame_zero [0; 0; 0; 0].
Proof.
  eexists. split; [reflexivity|]. split; [reflexivity|].
  split; [reflexivity|]. discriminate.
Qed.

(** ** More on the composite *)

Lemma where_sample_gt0_idem (s : sample) :
  where_sample gt0 (where_sample gt0 s) = where_sample gt0 s.
Proof.
  unfold where_sample. destruct (gt0 s) eqn:E; [now rewrite E|reflexivity].
Qed.

(** X1: the no-data policy is idempotent: masking [data] again gives
    [data], and the composite of an array that is already masked is the
    composite of the array. *)
Theorem data_idempotent (stack : DataArray) :
  data (data stack) = data stack /\
  compose (data stack) = compose stack /\
  compose (where_ gt0 stack) = compose stack.
Proof.
  assert (H : data (data stack) = data stack).
  { unfold data, assign_coords_band, where_. simpl.
    rewrite map_map. f_equal. apply map_ext, where_sample_gt0_idem. }
  split; [exact H|]. split.
  - unfold compose. now rewrite H.
  - unfold compose, data, assign_coords_band, where_, median. simpl.
    rewrite map_map.
    rewrite (map_ext _ _ where_sample_gt0_idem). reflexivity.
Qed.



Lemma count_perm (f : Q -> bool) (l l' : list Q) :
  Permutation l l' -> count f l = count f l'.
Proof.
  unfold count. induction 1 as [|x l l' _ IH|x y l|l l' l'' _ IH1 _ IH2];
    simpl; try reflexivity.
  - destruct (f x); simpl; now rewrite IH.
  - destruct (f x), (f y); reflexivity.
  - congruence.
Qed.

Lemma insert_perm (x : Q) (l : list Q) : Permutation (x :: l) (insert x l).
Proof.
  induction l as [|y t IH]; simpl; [reflexivity|].
  destruct (Qle_bool x y); [reflexivity|].
  rewrite perm_swap. now constructor.
Qed.

Lemma sort_perm (l : list Q) : Permutation l (sort l).
Proof.
  induction l as [|x t IH]; simpl; [constructor|].
  rewrite <- insert_perm. now constructor.
Qed.

Lemma sorted_nth_le (s : list Q) :
  StronglySorted Qle s ->
  forall i j, i <= j -> j < length s -> (nth i s 0 <= nth j s 0)%Q.
Proof.
  induction 1 as [|h t Hs IH Hall]; intros i j Hij Hj.
  - simpl in Hj. lia.
  - destruct i as [|i], j as [|j]; simpl in *; try lia.
    + lra.
    + rewrite Forall_forall in Hall. apply Hall. apply nth_In. lia.
    + apply IH; lia.
Qed.

(** In a sorted list, at most [k] elements are below the element at
    index [k], and at most [length s - k - 1] are above it. *)
Lemma sorted_count_below_nth (s : list Q) :
  StronglySorted Qle s ->
  forall k, k < length s ->
  count (fun q => Qltb q (nth k s 0%Q)) s <= k.
Proof.
  intros Hs k Hk. set (v := nth k s 0%Q).
  assert (Hc : forall n l, StronglySorted Qle l -> n < length l ->
             (nth n l 0 == v)%Q -> count (fun q => Qltb q v) l <= n).
  { clear. intros n l Hl. revert n. unfold count.
    induction Hl as [|h t Hs IH Hall]; intros n Hn Hv.
    - simpl. lia.
    - destruct n as [|n]; simpl in *.
      + assert (E : Qltb h v = false).
        { destruct (Qltb h v) eqn:E; [|reflexivity].
          apply Qltb_lt in E. lra. }
        rewrite E.
        assert (Hz : filter (fun q => Qltb q v) t = []).
        { clear -Hall Hv. induction Hall as [|z t Hz Ht IH]; simpl.
          - reflexivity.
          - destruct (Qltb z v) eqn:E; [|exact IH].
            apply Qltb_lt in E. lra. }
        rewrite Hz. simpl. lia.
      + specialize (IH n ltac:(lia) Hv).
        destruct (Qltb h v); simpl; lia. }
  apply (Hc k s Hs Hk). reflexivity.
Qed.

Lemma sorted_count_above_nth (s : list Q) :
  StronglySorted Qle s ->
  forall k, k < length s ->
  k + count (fun q => Qltb (nth k s 0%Q) q) s < length s.
Proof.
  intros Hs k Hk. set (v := nth k s 0%Q).
  assert (Hc : forall n l, StronglySorted Qle l -> n < length l ->
             (nth n l 0 == v)%Q ->
             n + count (fun q => Qltb v q) l < length l).
  { clear. intros n l Hl. revert n. unfold count.
    induction Hl as [|h t Hs IH Hall]; intros n Hn Hv.
    - simpl in Hn. lia.
    - destruct n as [|n]; simpl in *.
      + assert (E : Qltb v h = false).
        { destruct (Qltb v h) eqn:E; [|reflexivity].
          apply Qltb_lt in E. lra. }
        rewrite E.
        pose proof (filter_length_le (fun q => Qltb v q) t). lia.
      + assert (Hh : (h <= v)%Q).
        { rewrite Forall_forall in Hall.
          specialize (Hall _ (@nth_In _ n t 0%Q ltac:(lia))).
          cbv beta in Hall. lra. }
        assert (E : Qltb v h = false).
        { destruct (Qltb v h) eqn:E; [|reflexivity].
          apply Qltb_lt in E. lra. }
        rewrite E. specialize (IH n ltac:(lia) Hv). lia. }
  apply (Hc k s Hs Hk). reflexivity.
Qed.

(** Two sorted lists with the same elements agree index by index. *)
Lemma sorted_perm_nth (s s' : list Q) :
  StronglySorted Qle s -> StronglySorted Qle s' -> Permutation s s' ->
  forall k, k < length s -> (nth k s 0 == nth k s' 0)%Q.
Proof.
  intros Hs Hs' Hp k Hk.
  pose proof (Permutation_length Hp) as Hlen.
  apply sorted_nth_between; [exact Hs| |].
  - rewrite (count_perm _ _ _ Hp).
    apply sorted_count_below_nth; [exact Hs'|lia].
  - rewrite (count_perm _ _ _ Hp), Hlen.
    apply sorted_count_above_nth; [exact Hs'|lia].
Qed.

Lemma median_sorted_perm (s s' : list Q) :
  StronglySorted Qle s -> StronglySorted Qle s' -> Permutation s s' ->
  sample_equiv (median_sorted s) (median_sorted s').
Proof.
  intros Hs Hs' Hp.
  pose proof (Permutation_length Hp) as Hlen.
  pose proof (sorted_perm_nth s s' Hs Hs' Hp) as Hnth.
  unfold median_sorted. rewrite <- Hlen.
  remember (length s) as n eqn:En.
  destruct n as [|n']; [exact I|].
  assert (Hhalf : S n' / 2 < S n') by (apply Nat.div_lt; lia).
  destruct (Nat.odd (S n')); unfold sample_equiv.
  - apply Hnth. lia.
  - rewrite (Hnth (S n' / 2 - 1)) by lia.
    rewrite (Hnth (S n' / 2)) by lia.
    reflexivity.
Qed.

Lemma valid_samples_perm (l l' : list sample) :
  Permutation l l' -> Permutation (valid_samples l) (valid_samples l').
Proof. intro H. unfold valid_samples. now apply Permutation_flat_map. Qed.

(** The median of a series does not depend on the order of its
    samples. *)
Lemma nanmedian_perm (l l' : list sample) :
  Permutation l l' -> sample_equiv (nanmedian l) (nanmedian l').
Proof.
  intro Hp. unfold nanmedian.
  apply median_sorted_perm; try apply sort_sorted.
  rewrite <- !sort_perm. now apply valid_samples_perm.
Qed.

Lemma nth_concat_uniform (N : nat) (l : list (list sample)) (d : sample) :
  Forall (fun f => length f = N) l ->
  forall t i, i < N ->
  nth (t * N + i) (concat l) d = nth i (nth t l []) d.
Proof.
  induction 1 as [|f l Hf Hl IH]; intros t i Hi.
  - simpl. destruct t, i; destruct (_ + _); reflexivity.
  - destruct t as [|t]; simpl.
    + apply app_nth1. lia.
    + rewrite app_nth2 by lia.
      replace (N + t * N + i - length f) with (t * N + i) by lia.
      now apply IH.
Qed.

Lemma map_nth_seq {A B : Type} (g : A -> B) (l : list A) (d : A) :
  map (fun t => g (nth t l d)) (seq 0 (length l)) = map g l.
Proof.
  induction l as [|x l IH]; [reflexivity|].
  simpl. f_equal. rewrite <- seq_shift, map_map. exact IH.
Qed.

(** Reading a stack built from frames gives back the frames. *)
Lemma isel_mk_stack (bands : list string) (Y X : nat)
    (frames : list (list sample)) (t b y x : nat) :
  Forall (fun f => length f = length bands * Y * X) frames ->
  b < length bands -> y < Y -> x < X ->
  isel (mk_stack bands Y X frames) [t; b; y; x]
  = nth ((b * Y + y) * X + x) (nth t frames []) NaN.
Proof.
  intros Hf Hb Hy Hx. unfold isel, mk_stack, ravel. simpl.
  rewrite <- (nth_concat_uniform _ _ NaN Hf t)
    by (apply offset_bound; assumption).
  f_equal. lia.
Qed.

Lemma series_mk_stack (bands : list string) (Y X : nat)
    (frames : list (list sample)) (b y x : nat) :
  Forall (fun f => length f = length bands * Y * X) frames ->
  b < length bands -> y < Y -> x < X ->
  series (mk_stack bands Y X frames) b y x
  = map (fun f => nth ((b * Y + y) * X + x) f NaN) frames.
Proof.
  intros Hf Hb Hy Hx. unfold series.
  rewrite <- (map_nth_seq (fun f => nth ((b * Y + y) * X + x) f NaN)
                frames []).
  simpl. apply map_ext. intro t. now apply isel_mk_stack.
Qed.

Lemma Forall_uniform_perm (N : nat) (l l' : list (list sample)) :
  Permutation l l' ->
  Forall (fun f => length f = N) l -> Forall (fun f => length f = N) l'.
Proof.
  intros Hp H. rewrite Forall_forall in *. intros f Hin.
  apply H. eapply Permutation_in; [symmetry; exact Hp|exact Hin].
Qed.

(** X3: the composite does not depend on the order of the frames: stacks
    of the same frames in two orders have equal composites at every
    pixel-band. *)
Theorem compose_frame_order (bands : list string) (Y X : nat)
    (frames frames' : list (list sample)) :
  Forall (fun f => length f = length bands * Y * X) frames ->
  Permutation frames frames' ->
  exists c c',
    compose (mk_stack bands Y X frames) = Some c /\
    compose (mk_stack bands Y X frames') = Some c' /\
    forall b y x, b < length bands -> y < Y -> x < X ->
      sample_equiv (isel c [b; y; x]) (isel c' [b; y; x]).
Proof.
  intros Hf Hp.
  pose proof (Forall_uniform_perm _ _ _ Hp Hf) as Hf'.
  pose proof (mk_stack_RasterStack bands Y X frames Hf) as Hrs.
  pose proof (mk_stack_RasterStack bands Y X frames' Hf') as Hrs'.
  pose proof (compose_eq _ _ _ _ _ Hrs) as Hc.
  pose proof (compose_eq _ _ _ _ _ Hrs') as Hc'.
  match type of Hc with _ = Some ?c0 => remember c0 as c eqn:Ec end.
  match type of Hc' with _ = Some ?c0 => remember c0 as c' eqn:Ec' end.
  exists c, c'. split; [exact Hc|]. split; [exact Hc'|].
  intros b y x Hb Hy Hx.
  rewrite (isel_compose _ c _ _ _ _ b y x Hrs Hc Hb Hy Hx).
  rewrite (isel_compose _ c' _ _ _ _ b y x Hrs' Hc' Hb Hy Hx).
  rewrite !series_mk_stack by assumption.
  apply nanmedian_perm. now do 2 apply Permutation_map.
Qed.

Lemma compose_frame_order_witness :
  exists c c',
    compose (mk_stack ["red"] 1 1 [[Some 7%Q]; [Some 900%Q]; [Some 8%Q]])
    = Some c /\
    compose (mk_stack ["red"] 1 1 [[Some 900%Q]; [Some 8%Q]; [Some 7%Q]])
    = Some c' /\
    forall b y x, b < length ["red"] -> y < 1 -> x < 1 ->
      sample_equiv (isel c [b; y; x]) (isel c' [b; y; x]).
Proof.
  apply (compose_frame_order ["red"] 1 1
           [[Some 7%Q]; [Some 900%Q]; [Some 8%Q]]
           [[Some 900%Q]; [Some 8%Q]; [Some 7%Q]]).
  - repeat constructor.
  - apply Permutation_cons_append with (l := [[Some 900%Q]; [Some 8%Q]]).
Defined.

Lemma valid_samples_app (l1 l2 : list sample) :
  valid_samples (l1 ++ l2)%list
  = (valid_samples l1 ++ valid_samples l2)%list.
Proof. unfold valid_samples. apply flat_map_app. Qed.

(** X4: a frame without valid data at a pixel-band, such as a frame that
    is masked or at most 0 everywhere, leaves the composite as it is
    wherever it is put in the stack. *)
Theorem compose_nodata_frame (bands : list string) (Y X : nat)
    (frames1 frames2 : list (list sample)) (nf : list sample) :
  Forall (fun f => length f = length bands * Y * X)
         (frames1 ++ nf :: frames2)%list ->
  Forall (fun s => is_nodata s = true) nf ->
  exists c c',
    compose (mk_stack bands Y X (frames1 ++ frames2)%list) = Some c /\
    compose (mk_stack bands Y X (frames1 ++ nf :: frames2)%list) = Some c' /\
    forall b y x, b < length bands -> y < Y -> x < X ->
      isel c' [b; y; x] = isel c [b; y; x].
Proof.
  intros Hf' Hnf.
  assert (Hf : Forall (fun f => length f = length bands * Y * X)
                      (frames1 ++ frames2)%list).
  { apply Forall_app in Hf' as [H1 H2]. apply Forall_app. split; [exact H1|].
    now inversion H2. }
  assert (Hlen : length nf = length bands * Y * X).
  { apply Forall_app in Hf' as [_ H2]. now inversion H2. }
  pose proof (mk_stack_RasterStack bands Y X _ Hf) as Hrs.
  pose proof (mk_stack_RasterStack bands Y X _ Hf') as Hrs'.
  pose proof (compose_eq _ _ _ _ _ Hrs) as Hc.
  pose proof (compose_eq _ _ _ _ _ Hrs') as Hc'.
  match type of Hc with _ = Some ?c0 => remember c0 as c eqn:Ec end.
  match type of Hc' with _ = Some ?c0 => remember c0 as c' eqn:Ec' end.
  exists c, c'. split; [exact Hc|]. split; [exact Hc'|].
  intros b y x Hb Hy Hx.
  rewrite (isel_compose _ c _ _ _ _ b y x Hrs Hc Hb Hy Hx).
  rewrite (isel_compose _ c' _ _ _ _ b y x Hrs' Hc' Hb Hy Hx).
  rewrite !series_mk_stack by assumption.
  unfold nanmedian. do 2 f_equal.
  rewrite !map_app, !valid_samples_app. f_equal. simpl.
  assert (Hs : where_sample gt0 (nth ((b * Y + y) * X + x) nf NaN) = NaN).
  { pose proof (offset_bound _ Y X b y x Hb Hy Hx) as Hoff.
    rewrite <- Hlen in Hoff.
    rewrite Forall_forall in Hnf.
    specialize (Hnf _ (nth_In nf NaN Hoff)).
    unfold where_sample, gt0, is_nodata in *.
    destruct (nth ((b * Y + y) * X + x) nf NaN) as [q|]; [|reflexivity].
    simpl in Hnf. now rewrite Hnf. }
  rewrite Hs. reflexivity.
Qed.

Lemma compose_nodata_frame_witness :
  exists c c',
    compose (mk_stack ["red"] 1 1 ([[Some 7%Q]] ++ [[Some 9%Q]])%list) = Some c /\
    compose (mk_stack ["red"] 1 1
               ([[Some 7%Q]] ++ [Some 0%Q] :: [[Some 9%Q]])%list) = Some c' /\
    forall b y x, b < length ["red"] -> y < 1 -> x < 1 ->
      isel c' [b; y; x] = isel c [b; y; x].
Proof.
  apply (compose_nodata_frame ["red"] 1 1 [[Some 7%Q]] [[Some 9%Q]]
           [Some 0%Q]).
  - repeat constructor.
  - repeat constructor.
Defined.

Lemma median_sorted_bounds (s : list Q) (m : Q) :
  StronglySorted Qle s -> median_sorted s = Some m ->
  (exists lo hi, In lo s /\ In hi s /\ (lo <= m <= hi)%Q) /\
  (Nat.odd (length s) = true -> In m s).
Proof.
  intros Hs Hm. unfold median_sorted in Hm.
  remember (length s) as n eqn:En.
  destruct n as [|n']; [discriminate|].
  assert (Hhalf : S n' / 2 < S n') by (apply Nat.div_lt; lia).
  destruct (Nat.odd (S n')) eqn:Eodd; injection Hm as Hm.
  - assert (Hm' : nth (S n' / 2) s 0%Q = m) by exact Hm. clear Hm.
    assert (Hin : In m s) by (rewrite <- Hm'; apply nth_In; lia).
    split; [|intros _; exact Hin].
    exists m, m. repeat split; try exact Hin; apply Qle_refl.
  - assert (Hm' : ((nth (S n' / 2 - 1) s 0 + nth (S n' / 2) s 0) / 2 = m)%Q)
      by exact Hm.
    clear Hm. split; [|discriminate].
    exists (nth (S n' / 2 - 1) s 0%Q), (nth (S n' / 2) s 0%Q).
    pose proof (sorted_nth_le s Hs (S n' / 2 - 1) (S n' / 2)
                  ltac:(lia) ltac:(lia)) as Hle.
    split; [apply nth_In; lia|]. split; [apply nth_In; lia|].
    revert Hm' Hle.
    generalize (nth (S n' / 2 - 1) s 0%Q), (nth (S n' / 2) s 0%Q).
    intros p q <- Hle. split.
    + apply Qle_shift_div_l; lra.
    + apply Qle_shift_div_r; lra.
Qed.

(** X5: a value of the composite is positive; it lies between two valid
    samples of its pixel series, and it is one of them when their number
    is odd. *)
Theorem compose_value_bounds (a : DataArray) (T B Y X b y x : nat) :
  RasterStack a T B Y X -> b < B -> y < Y -> x < X ->
  exists c,
    compose a = Some c /\
    forall m, isel c [b; y; x] = Some m ->
      (0 < m)%Q /\
      (exists lo hi,
         In lo (valid_series a b y x) /\ In hi (valid_series a b y x) /\
         (lo <= m <= hi)%Q) /\
      (Nat.odd (length (valid_series a b y x)) = true ->
       In m (valid_series a b y x)).
Proof.
  intros Hrs Hb Hy Hx.
  pose proof (compose_eq a T B Y X Hrs) as Hc.
  match type of Hc with _ = Some ?c0 => remember c0 as c eqn:Ec end.
  exists c. split; [exact Hc|]. intros m Hm.
  rewrite (isel_compose a c T B Y X b y x Hrs Hc Hb Hy Hx) in Hm.
  unfold nanmedian in Hm. rewrite valid_samples_where_kept in Hm.
  fold (valid_series a b y x) in Hm.
  pose proof (valid_samples_where_gt0 (series a b y x)) as Hpos.
  rewrite valid_samples_where_kept in Hpos.
  fold (valid_series a b y x) in Hpos.
  set (vs := valid_series a b y x) in *.
  destruct (median_sorted_bounds (sort vs) m (sort_sorted vs) Hm)
    as [(lo & hi & Hlo & Hhi & Hle) Hodd].
  assert (Hin : forall q, In q (sort vs) -> In q vs).
  { intros q Hq. eapply Permutation_in; [|exact Hq].
    symmetry. apply sort_perm. }
  rewrite Forall_forall in Hpos.
  pose proof (Hpos lo (Hin lo Hlo)). pose proof (Hpos hi (Hin hi Hhi)).
  split; [lra|]. split.
  - exists lo, hi. auto.
  - intro Ho. apply Hin, Hodd. now rewrite sort_length.
Qed.

Lemma compose_value_bounds_witness :
  exists c,
    compose three_frames = Some c /\
    forall m, isel c [0; 0; 0] = Some m ->
      (0 < m)%Q /\
      (exists lo hi,
         In lo (valid_series three_frames 0 0 0) /\
         In hi (valid_series three_frames 0 0 0) /\
         (lo <= m <= hi)%Q) /\
      (Nat.odd (length (valid_series three_frames 0 0 0)) = true ->
       In m (valid_series three_frames 0 0 0)).
Proof.
  apply (compose_value_bounds three_frames 3 1 1 1 0 0 0).
  - apply (mk_stack_RasterStack ["red"] 1 1). repeat constructor.
  - lia.
  - lia.
  - lia.
Defined.

(** ** Monthly composites *)

Lemma insert_unique_In (m x : nat) (l : list nat) :
  In x (insert_unique m l) <-> x = m \/ In x l.
Proof.
  induction l as [|h t IH]; simpl.
  - intuition.
  - destruct (m <? h)%nat eqn:E1; [simpl; intuition|].
    destruct (m =? h)%nat eqn:E2.
    + apply Nat.eqb_eq in E2. subst. simpl. intuition.
    + simpl. rewrite IH. intuition.
Qed.

Lemma unique_sorted_In (m : nat) (l : list nat) :
  In m (unique_sorted l) <-> In m l.
Proof.
  induction l as [|h t IH]; simpl; [tauto|].
  rewrite insert_unique_In, IH. intuition.
Qed.

Lemma insert_unique_sorted (m : nat) (l : list nat) :
  StronglySorted lt l -> StronglySorted lt (insert_unique m l).
Proof.
  induction 1 as [|h t Hs IH Hall]; simpl.
  - repeat constructor.
  - destruct (m <? h)%nat eqn:E1.
    + apply Nat.ltb_lt in E1. constructor; [now constructor|].
      constructor; [exact E1|].
      eapply Forall_impl; [|exact Hall]. intros z Hz. simpl in Hz. lia.
    + apply Nat.ltb_ge in E1. destruct (m =? h)%nat eqn:E2.
      * now constructor.
      * apply Nat.eqb_neq in E2. constructor; [exact IH|].
        apply Forall_forall. intros z Hz.
        apply insert_unique_In in Hz as [->|Hz]; [lia|].
        rewrite Forall_forall in Hall. now apply Hall.
Qed.

Lemma unique_sorted_sorted (l : list nat) :
  StronglySorted lt (unique_sorted l).
Proof.
  induction l as [|h t IH]; simpl; [constructor|].
  now apply insert_unique_sorted.
Qed.

Lemma unique_sorted_const (m : nat) (l : list nat) :
  l <> [] -> Forall (eq m) l -> unique_sorted l = [m].
Proof.
  intros Hne H. induction H as [|h t <- Ht IH]; [congruence|].
  simpl. destruct t as [|h' t'].
  - reflexivity.
  - rewrite IH by discriminate. simpl.
    now rewrite Nat.ltb_irrefl, Nat.eqb_refl.
Qed.

Lemma group_indices_In (labels : list nat) (m t : nat) :
  In t (group_indices labels m) <->
  t < length labels /\ nth t labels 0 = m.
Proof.
  unfold group_indices. rewrite filter_In, in_seq, Nat.eqb_eq. lia.
Qed.

Lemma group_indices_const (m : nat) (l : list nat) :
  Forall (eq m) l -> group_indices l m = seq 0 (length l).
Proof.
  intro H. unfold group_indices. apply forallb_filter_id.
  apply forallb_forall. intros t Ht. apply in_seq in Ht.
  apply Nat.eqb_eq. rewrite Forall_forall in H.
  symmetry. apply H. apply nth_In. lia.
Qed.

Lemma nth_flat_map_uniform {A : Type} (F : A -> nat -> sample) (N : nat)
    (l : list A) (g i : nat) (d0 : A) :
  g < length l -> i < N ->
  nth (g * N + i) (flat_map (fun x => map (F x) (seq 0 N)) l) NaN
  = F (nth g l d0) i.
Proof.
  intros Hg Hi. rewrite flat_map_concat_map.
  rewrite nth_concat_uniform with (N := N); [|..|exact Hi].
  - rewrite (nth_indep _ [] (map (F d0) (seq 0 N)))
      by now rewrite length_map.
    rewrite (map_nth (fun x => map (F x) (seq 0 N))).
    now apply nth_map_seq.
  - apply Forall_forall. intros f Hf. apply in_map_iff in Hf as (x & <- & _).
    now rewrite length_map, length_seq.
Qed.

(** The monthly composites of a stack, value by value. *)
Lemma monthly_eq (a : DataArray) (T B Y X : nat) (months : list nat) :
  RasterStack a T B Y X -> length months = T -> 0 < T ->
  monthly months a =
  Some (unique_sorted months,
        {| dims := ["month"; "band"; "y"; "x"];
           shape := [length (unique_sorted months); B; Y; X];
           band := common_name a;
           common_name := common_name a;
           values :=
             flat_map
               (fun idxs =>
                  map (fun i =>
                         nanmedian
                           (map (fun t =>
                                   nth (t * (B * Y * X) + i)
                                     (values (data a)) NaN)
                                idxs))
                      (seq 0 (B * Y * X)))
               (map (group_indices months) (unique_sorted months)) |}).
Proof.
  intros [Hd Hs _ _ _] Hlen HT.
  unfold monthly, groupby_median, data, assign_coords_band, where_. simpl.
  rewrite Hd, Hs. simpl. rewrite Hlen, Nat.eqb_refl. simpl.
  destruct (unique_sorted months) as [|m0 ms] eqn:Eu.
  - exfalso. destruct months as [|m t]; [simpl in Hlen; lia|].
    assert (Hin : In m (unique_sorted (m :: t)))
      by (apply unique_sorted_In; now left).
    rewrite Eu in Hin. exact Hin.
  - unfold groupby_reduce_axis, replace_nth. simpl.
    rewrite app_nil_r.
    replace (B * (Y * (X * 1))) with (B * Y * X) by lia.
    reflexivity.
Qed.

Lemma nth_data (a : DataArray) (k : nat) :
  nth k (values (data a)) NaN = where_sample gt0 (nth k (values a) NaN).
Proof.
  unfold data, assign_coords_band, where_. simpl.
  change NaN with (where_sample gt0 NaN) at 1. now rewrite map_nth.
Qed.

(** X6: the composite of month [m] is the median, per pixel-band, of the
    valid samples of exactly the frames dated in month [m]; the months of
    the result are those that occur, each once, in increasing order. *)
Theorem monthly_by_month (a : DataArray) (T B Y X : nat)
    (months : list nat) :
  RasterStack a T B Y X -> length months = T -> 0 < T ->
  exists ms r,
    monthly months a = Some (ms, r) /\
    StronglySorted lt ms /\
    (forall m, In m ms <-> In m months) /\
    dims r = ["month"; "band"; "y"; "x"] /\
    shape r = [length ms; B; Y; X] /\
    (forall g b y x, g < length ms -> b < B -> y < Y -> x < X ->
       isel r [g; b; y; x]
       = nanmedian
           (map (fun t => where_sample gt0 (isel a [t; b; y; x]))
                (group_indices months (nth g ms 0)))) /\
    (forall m t,
       In t (group_indices months m) <-> t < T /\ nth t months 0 = m).
Proof.
  intros Hrs Hlen HT.
  pose proof (monthly_eq a T B Y X months Hrs Hlen HT) as Hm.
  match type of Hm with _ = Some (_, ?r0) => remember r0 as r eqn:Er end.
  exists (unique_sorted months), r.
  split; [exact Hm|]. split; [apply unique_sorted_sorted|].
  split; [intro m; apply unique_sorted_In|].
  split; [now subst r|]. split; [now subst r|]. split.
  - intros g b y x Hg Hb Hy Hx. unfold isel at 1. subst r. simpl.
    unfold ravel. simpl.
    pose proof (offset_bound B Y X b y x Hb Hy Hx) as Hoff.
    replace (((g * B + b) * Y + y) * X + x)
      with (g * (B * Y * X) + ((b * Y + y) * X + x)) by lia.
    rewrite (nth_flat_map_uniform
               (fun idxs i =>
                  nanmedian
                    (map (fun t =>
                            nth (t * (B * Y * X) + i) (values (data a)) NaN)
                         idxs))
               (B * Y * X) _ g _ [])
      by (rewrite ?length_map; assumption).
    rewrite (nth_indep _ [] (group_indices months 0))
      by now rewrite length_map.
    rewrite (map_nth (group_indices months)).
    f_equal. apply map_ext. intro t. rewrite nth_data. f_equal.
    unfold isel. rewrite (rs_shape _ _ _ _ _ Hrs). unfold ravel. simpl.
    f_equal. lia.
  - intros m t. rewrite group_indices_In, Hlen. reflexivity.
Qed.

Lemma monthly_by_month_witness :
  exists ms r,
    monthly [2; 1] two_frames = Some (ms, r) /\
    StronglySorted lt ms /\
    (forall m, In m ms <-> In m [2; 1]) /\
    dims r = ["month"; "band"; "y"; "x"] /\
    shape r = [length ms; 2; 1; 2] /\
    (forall g b y x, g < length ms -> b < 2 -> y < 1 -> x < 2 ->
       isel r [g; b; y; x]
       = nanmedian
           (map (fun t => where_sample gt0 (isel two_frames [t; b; y; x]))
                (group_indices [2; 1] (nth g ms 0)))) /\
    (forall m t,
       In t (group_indices [2; 1] m) <-> t < 2 /\ nth t [2; 1] 0 = m).
Proof.
  apply (monthly_by_month two_frames 2 2 1 2 [2; 1]).
  - apply (mk_stack_RasterStack ["B04"; "B02"] 1 2). repeat constructor.
  - reflexivity.
  - lia.
Defined.

(** X7: when all frames are dated in one month, the monthly composites
    are that single month with the composite of the whole stack. *)
Theorem monthly_single_month (a : DataArray) (T B Y X m : nat)
    (months : list nat) :
  RasterStack a T B Y X -> length months = T -> 0 < T ->
  Forall (eq m) months ->
  exists r c,
    monthly months a = Some ([m], r) /\
    compose a = Some c /\
    values r = values c /\
    shape r = 1 :: shape c /\
    band r = band c.
Proof.
  intros Hrs Hlen HT Hall.
  pose proof (monthly_eq a T B Y X months Hrs Hlen HT) as Hm.
  pose proof (compose_eq a T B Y X Hrs) as Hc.
  assert (Hu : unique_sorted months = [m]).
  { apply unique_sorted_const; [|exact Hall].
    intros ->. simpl in Hlen. lia. }
  rewrite Hu in Hm. simpl in Hm.
  rewrite (group_indices_const m months Hall), Hlen, app_nil_r in Hm.
  do 2 eexists. split; [exact Hm|]. split; [exact Hc|].
  simpl. repeat split.
  apply map_ext. intro i. f_equal. apply map_ext. intro t.
  apply nth_data.
Qed.

Lemma monthly_single_month_witness :
  exists r c,
    monthly [7; 7] two_frames = Some ([7], r) /\
    compose two_frames = Some c /\
    values r = values c /\
    shape r = 1 :: shape c /\
    band r = band c.
Proof.
  apply (monthly_single_month two_frames 2 2 1 2 7 [7; 7]).
  - apply (mk_stack_RasterStack ["B04"; "B02"] 1 2). repeat constructor.
  - reflexivity.
  - lia.
  - repeat constructor.
Defined.

(** ** The storm track and the GOES items *)

Lemma argmax_from_true (bi i : nat) (l : list bool) :
  argmax_from bi true i l = bi.
Proof. revert i. induction l as [|x t IH]; intro i; simpl; auto. Qed.

Lemma argmax_from_false (bi : nat) (l : list bool) :
  forall i,
  (In true l ->
   exists j, argmax_from bi false i l = i + j /\ nth j l false = true /\
             forall j', j' < j -> nth j' l false = false) /\
  (~ In true l -> argmax_from bi false i l = bi).
Proof.
  induction l as [|x t IH]; intro i; simpl.
  - split; [intros []|reflexivity].
  - destruct x; simpl.
    + split.
      * intros _. exists 0. rewrite argmax_from_true.
        split; [lia|]. split; [reflexivity|]. intros j' Hj'. lia.
      * intro H. exfalso. apply H. now left.
    + destruct (IH (S i)) as [IH1 IH2]. split.
      * intros [H|H]; [discriminate|].
        destruct (IH1 H) as (j & Hr & Hj & Hlt).
        exists (S j). split; [lia|]. split; [exact Hj|].
        intros [|j'] Hj'; [reflexivity|]. apply Hlt. lia.
      * intro H. apply IH2. intro Hin. apply H. now right.
Qed.

Lemma argmax_spec (l : list bool) :
  (argmax l = None <-> l = []) /\
  (In true l ->
   exists i, argmax l = Some i /\ i < length l /\ nth i l false = true /\
             forall j, j < i -> nth j l false = false) /\
  (l <> [] -> ~ In true l -> argmax l = Some 0).
Proof.
  destruct l as [|x t]; simpl.
  - split; [tauto|]. split; [intros []|congruence].
  - split; [split; discriminate|].
    destruct x.
    + split.
      * intros _. exists 0. rewrite argmax_from_true.
        split; [reflexivity|]. split; [lia|]. split; [reflexivity|].
        intros j Hj. lia.
      * intros _ H. exfalso. apply H. now left.
    + destruct (argmax_from_false 0 t 1) as [H1 H2]. split.
      * intros [H|H]; [discriminate|].
        destruct (H1 H) as (j & Hr & Hj & Hlt).
        exists (S j). rewrite Hr. split; [reflexivity|].
        assert (j < length t).
        { destruct (le_lt_dec (length t) j) as [Hge|Hlt']; [|exact Hlt'].
          rewrite nth_overflow in Hj by exact Hge. discriminate. }
        split; [lia|]. split; [exact Hj|].
        intros [|j'] Hj'; [reflexivity|]. apply Hlt. lia.
      * intros _ H. rewrite H2; [reflexivity|].
        intro Hin. apply H. now right.
Qed.

(** X8: [storm_loc] is the position of the first storm whose identifier
    is [STORM_ID]; when no storm has that identifier it is 0, the
    position of the first storm, and not an error; only an empty list of
    storms is an error. *)
Theorem storm_loc_first_or_zero (sid : list string) (STORM_ID : string) :
  (storm_loc sid STORM_ID = None <-> sid = []) /\
  (In STORM_ID sid ->
   exists i, storm_loc sid STORM_ID = Some i /\ i < length sid /\
             nth i sid "" = STORM_ID /\
             forall j, j < i -> nth j sid "" <> STORM_ID) /\
  (sid <> [] -> ~ In STORM_ID sid -> storm_loc sid STORM_ID = Some 0).
Proof.
  unfold storm_loc.
  set (f := fun s => String.eqb s STORM_ID).
  destruct (argmax_spec (map f sid)) as (Hnone & Hfound & Hmissing).
  assert (Hin : In true (map f sid) <-> In STORM_ID sid).
  { rewrite in_map_iff. split.
    - intros (s & Hs & Hi). apply String.eqb_eq in Hs. now subst.
    - intro Hi. exists STORM_ID. split; [apply String.eqb_refl|exact Hi]. }
  assert (Hnth : forall i, i < length sid ->
            nth i (map f sid) false = f (nth i sid "")).
  { intros i Hi. rewrite (nth_indep _ false (f "")) by now rewrite length_map.
    apply map_nth. }
  split; [|split].
  - rewrite Hnone. split; [apply map_eq_nil|intros ->; reflexivity].
  - intro H. destruct (Hfound (proj2 Hin H)) as (i & Hr & Hi & Ht & Hlt).
    rewrite length_map in Hi. exists i.
    split; [exact Hr|]. split; [exact Hi|]. split.
    + rewrite Hnth in Ht by exact Hi. now apply String.eqb_eq in Ht.
    + intros j Hj Heq. specialize (Hlt j Hj).
      rewrite Hnth in Hlt by lia. unfold f in Hlt.
      rewrite Heq, String.eqb_refl in Hlt. discriminate.
  - intros Hne Hn. apply Hmissing.
    + intro H. apply Hne. now apply map_eq_nil in H.
    + intro H. apply Hn. now apply Hin.
Qed.

Section SortedByKey.
Context {A : Type} (key : A -> Z).

Lemma insert_by_perm (x : A) (l : list A) :
  Permutation (x :: l) (insert_by key x l).
Proof.
  induction l as [|y t IH]; simpl; [reflexivity|].
  destruct (key x <=? key y)%Z; [reflexivity|].
  rewrite perm_swap. now constructor.
Qed.

Lemma sorted_perm (l : list A) : Permutation l (sorted key l).
Proof.
  induction l as [|x t IH]; simpl; [constructor|].
  rewrite <- insert_by_perm. now constructor.
Qed.

Lemma insert_by_sorted (x : A) (l : list A) :
  StronglySorted (fun a b => (key a <= key b)%Z) l ->
  StronglySorted (fun a b => (key a <= key b)%Z) (insert_by key x l).
Proof.
  induction 1 as [|y t Hs IH Hall]; simpl.
  - repeat constructor.
  - destruct (key x <=? key y)%Z eqn:E.
    + apply Z.leb_le in E. constructor; [now constructor|].
      constructor; [exact E|].
      eapply Forall_impl; [|exact Hall]. intros z Hz. simpl in Hz. lia.
    + apply Z.leb_gt in E. constructor; [exact IH|].
      apply Forall_forall. intros z Hz.
      apply (Permutation_in _ (Permutation_sym (insert_by_perm x t)))
        in Hz.
      destruct Hz as [<-|Hz]; [lia|].
      rewrite Forall_forall in Hall. now apply Hall.
Qed.

Lemma sorted_sorted (l : list A) :
  StronglySorted (fun a b => (key a <= key b)%Z) (sorted key l).
Proof.
  induction l as [|x t IH]; simpl; [constructor|].
  now apply insert_by_sorted.
Qed.

Lemma insert_by_stable (d : Z) (x : A) (l : list A) :
  filter (fun a => (key a =? d)%Z) (insert_by key x l)
  = filter (fun a => (key a =? d)%Z) (x :: l).
Proof.
  induction l as [|y t IH]; [reflexivity|].
  simpl insert_by. destruct (key x <=? key y)%Z eqn:E; [reflexivity|].
  apply Z.leb_gt in E. simpl in *. rewrite IH.
  destruct (key x =? d)%Z eqn:Ex, (key y =? d)%Z eqn:Ey; try reflexivity.
  apply Z.eqb_eq in Ex, Ey. lia.
Qed.

Lemma sorted_stable (d : Z) (l : list A) :
  filter (fun a => (key a =? d)%Z) (sorted key l)
  = filter (fun a => (key a =? d)%Z) l.
Proof.
  induction l as [|x t IH]; [reflexivity|].
  simpl sorted. rewrite insert_by_stable. simpl. now rewrite IH.
Qed.
Lemma sorted_keys (l : list A) :
  StronglySorted Z.le (map key (sorted key l)).
Proof.
  induction (sorted_sorted l) as [|y t Hs IH Hall]; simpl; constructor.
  - exact IH.
  - apply Forall_map. exact Hall.
Qed.
End SortedByKey.

(** X9: [signed_items] holds the items, each once, in chronological
    order, items of equal [datetime] in the order they came in; so the
    [time] coordinate never decreases and the first item is an
    earliest one. *)
Theorem signed_items_chronological (items : list item) :
  Permutation items (signed_items items) /\
  length (signed_items items) = length items /\
  StronglySorted Z.le (time_coord items) /\
  (forall d,
     filter (fun x => (datetime x =? d)%Z) (signed_items items)
     = filter (fun x => (datetime x =? d)%Z) items) /\
  (forall x, In x items ->
     exists first rest,
       signed_items items = first :: rest /\
       (datetime first <= datetime x)%Z).
Proof.
  unfold time_coord, signed_items.
  pose proof (sorted_perm datetime items) as Hp.
  pose proof (sorted_sorted datetime items) as Hs.
  split; [exact Hp|].
  split; [symmetry; now apply Permutation_length|].
  split; [apply sorted_keys|].
  split; [intro d; apply sorted_stable|].
  intros x Hx. apply (Permutation_in _ Hp) in Hx.
  destruct (sorted datetime items) as [|first rest]; [destruct Hx|].
  exists first, rest. split; [reflexivity|].
  destruct Hx as [<-|Hx]; [lia|].
  inversion Hs as [|? ? _ Hall]. subst.
  rewrite Forall_forall in Hall. now apply Hall.
Qed.

(** ** The rendering *)

Local Open Scope R_scope.

Lemma inv_gamma_pos : 0 < 1 / gamma.
Proof. unfold gamma. lra. Qed.

Lemma Rpower_one_base (e : R) : Rpower 1 e = 1.
Proof. unfold Rpower. now rewrite ln_1, Rmult_0_r, exp_0. Qed.

Lemma Rpower_pos (x e : R) : 0 < Rpower x e.
Proof. unfold Rpower. apply exp_pos. Qed.

Lemma Rpower_le_one (x e : R) : 0 < e -> 0 < x <= 1 -> Rpower x e <= 1.
Proof.
  intros He Hx. rewrite <- (Rpower_one_base e).
  apply Rle_Rpower_l; lra.
Qed.

Lemma gamma_stage_zero : gamma_stage (Fin 0) = Fin 0.
Proof.
  unfold gamma_stage, fpow. destruct (Req_dec_T 0 0); [reflexivity|lra].
Qed.

Lemma gamma_stage_one : gamma_stage (Fin 1) = Fin 1.
Proof.
  unfold gamma_stage, fpow.
  destruct (Req_dec_T 1 0); [lra|].
  destruct (Rlt_dec 0 1); [|lra].
  now rewrite Rpower_one_base.
Qed.

Lemma gamma_stage_pos (x : R) :
  0 < x -> gamma_stage (Fin x) = Fin (Rpower x (1 / gamma)).
Proof.
  intro Hx. unfold gamma_stage, fpow.
  destruct (Req_dec_T x 0); [lra|].
  destruct (Rlt_dec 0 x); [reflexivity|lra].
Qed.

Lemma clamp_Fin (x : R) :
  clamp (Fin x) = Fin (if Rlt_dec 0 x then if Rlt_dec x 1 then x else 1
                       else 0).
Proof.
  unfold clamp, where_other, fgt0, flt1.
  destruct (Rlt_dec 0 x).
  - destruct (Rlt_dec x 1); reflexivity.
  - destruct (Rlt_dec 0 1); [reflexivity|lra].
Qed.

Lemma clamp_range (v : fval) : exists r, clamp v = Fin r /\ 0 <= r <= 1.
Proof.
  destruct v as [x| | |].
  - rewrite clamp_Fin. eexists; split; [reflexivity|].
    destruct (Rlt_dec 0 x); [destruct (Rlt_dec x 1)|]; lra.
  - exists 1. split; [reflexivity|lra].
  - exists 0. split; [|lra]. unfold clamp, where_other. simpl.
    destruct (Rlt_dec 0 1); [reflexivity|lra].
  - exists 0. split; [|lra]. unfold clamp, where_other. simpl.
    destruct (Rlt_dec 0 1); [reflexivity|lra].
Qed.

Lemma fold_left_Rmax_ge (t : list R) (x : R) :
  x <= fold_left Rmax t x /\ Forall (fun v => v <= fold_left Rmax t x) t.
Proof.
  revert x. induction t as [|h t IH]; intro x; simpl.
  - split; [lra|constructor].
  - destruct (IH (Rmax x h)) as [H1 H2].
    pose proof (Rmax_l x h). pose proof (Rmax_r x h).
    split; [lra|]. constructor; [lra|exact H2].
Qed.

Lemma fold_left_Rmax_In (t : list R) (x : R) :
  In (fold_left Rmax t x) (x :: t).
Proof.
  revert x. induction t as [|h t IH]; intro x; simpl.
  - now left.
  - destruct (IH (Rmax x h)) as [H|H].
    + rewrite <- H. unfold Rmax. destruct (Rle_dec x h); auto.
    + right. now right.
Qed.

Lemma list_max_spec (l : list R) (m : R) :
  list_max l = Some m -> In m l /\ Forall (fun v => v <= m) l.
Proof.
  destruct l as [|x t]; simpl; [discriminate|].
  intro H. injection H as <-. split.
  - apply fold_left_Rmax_In.
  - destruct (fold_left_Rmax_ge t x). now constructor.
Qed.

(** With a positive maximum, a value of the frame is rendered as 0 when
    it is at most 0 and as [(v / m) ** (1 / γ)] otherwise. *)
Lemma render_value_closed_form (m v : R) :
  0 < m -> v <= m ->
  render_value m v =
  Fin (if Rle_dec v 0 then 0 else Rpower (v / m) (1 / gamma)).
Proof.
  intros Hm Hv. unfold render_value, fdiv.
  destruct (Req_dec_T m 0); [lra|].
  destruct (Rle_dec v 0) as [Hle|Hgt].
  - destruct (Req_dec v 0) as [->|Hne].
    + replace (0 / m) with 0 by (field; lra).
      rewrite gamma_stage_zero, clamp_Fin.
      destruct (Rlt_dec 0 0); [lra|reflexivity].
    + assert (Hneg : v / m < 0).
      { pose proof (Rinv_0_lt_compat m Hm). unfold Rdiv. nra. }
      unfold gamma_stage, fpow.
      destruct (Req_dec_T (v / m) 0); [lra|].
      destruct (Rlt_dec 0 (v / m)); [lra|].
      unfold clamp, where_other. simpl.
      destruct (Rlt_dec 0 1); [reflexivity|lra].
  - assert (Hpos : 0 < v / m).
    { pose proof (Rinv_0_lt_compat m Hm). unfold Rdiv. nra. }
    assert (Hle1 : v / m <= 1).
    { pose proof (Rinv_0_lt_compat m Hm).
      pose proof (Rinv_r m ltac:(lra)). unfold Rdiv. nra. }
    rewrite gamma_stage_pos by exact Hpos. rewrite clamp_Fin.
    pose proof (Rpower_pos (v / m) (1 / gamma)).
    pose proof (Rpower_le_one (v / m) (1 / gamma) inv_gamma_pos
                  (conj Hpos Hle1)).
    destruct (Rlt_dec 0 (Rpower (v / m) (1 / gamma))); [|lra].
    destruct (Rlt_dec (Rpower (v / m) (1 / gamma)) 1); [reflexivity|].
    f_equal. lra.
Qed.

Lemma rgb_frame_cons (p : pixel) (f : frame) :
  exists m,
    frame_max (concat_sel (p :: f)) = Some m /\
    rgb_frame (p :: f)
    = Some (map (map_px (render_value m)) (concat_sel (p :: f))).
Proof.
  unfold rgb_frame. simpl. eexists. split; reflexivity.
Qed.

Lemma example_frame_code :
  exists v rest g b,
    rgb_channels example_frame = Some (Fin v :: rest, g, b) /\ 0 < v.
Proof.
  destruct (rgb_frame_cons (mkPixel 1 1 1) [mkPixel 2 2 2])
    as (m & Hm & Hrgb).
  destruct (list_max_spec _ _ Hm) as [_ Hall].
  assert (H1 : 1 <= m) by (inversion Hall; assumption).
  unfold rgb_channels, example_frame. rewrite Hrgb. simpl.
  rewrite (render_value_closed_form m 1) by lra.
  destruct (Rle_dec 1 0); [lra|].
  do 4 eexists. split; [reflexivity|]. apply Rpower_pos.
Qed.

Lemma example_frame_spec :
  exists rest g b,
    spec_true_color example_frame = Some (Fin 0 :: rest, g, b).
Proof.
  unfold spec_true_color, spec_channel, example_frame. simpl.
  assert (Hlo : Rmin 1 2 = 1) by (apply Rmin_left; lra).
  assert (Hhi : Rmax 1 2 = 2) by (apply Rmax_right; lra).
  rewrite Hlo, Hhi.
  assert (E : clamp (gamma_stage (fdiv (1 - 1) (2 - 1))) = Fin 0).
  { unfold fdiv. destruct (Req_dec_T (2 - 1) 0); [lra|].
    replace ((1 - 1) / (2 - 1)) with 0 by (field; lra).
    rewrite gamma_stage_zero, clamp_Fin.
    destruct (Rlt_dec 0 0); [lra|reflexivity]. }
  rewrite E. do 3 eexists. reflexivity.
Qed.

(** ** The claims on the rendering *)

(** C7, as the code has it: all three channels of a time step are divided
    by one constant, the maximum over the three channels and all pixels of
    that time step, and no minimum is subtracted; then comes the gamma
    stage with γ = 2.2, then the clamping. *)
Theorem rgb_frame_global_max (p : pixel) (f : frame) :
  exists m out,
    frame_max (concat_sel (p :: f)) = Some m /\
    In m (flat_map px_values (concat_sel (p :: f))) /\
    Forall (fun v => v <= m) (flat_map px_values (concat_sel (p :: f))) /\
    rgb_frame (p :: f) = Some out /\
    out = map (fun q =>
                 mkRGB (clamp (fpow (fdiv (red q) m) (1 / 2.2)))
                       (clamp (fpow (fdiv (green q) m) (1 / 2.2)))
                       (clamp (fpow (fdiv (blue q) m) (1 / 2.2))))
              (p :: f).
Proof.
  destruct (rgb_frame_cons p f) as (m & Hm & Hrgb).
  destruct (list_max_spec _ _ Hm) as [Hin Hall].
  exists m, (map (map_px (render_value m)) (concat_sel (p :: f))).
  split; [exact Hm|]. split; [exact Hin|]. split; [exact Hall|].
  split; [exact Hrgb|].
  unfold concat_sel. rewrite map_map. reflexivity.
Qed.

(** C7, as the claim words it: on the frame of two pixels whose bands are
    all 1 and all 2, per-channel min-max normalisation sends the first red
    value to 0 while the code sends it to a positive value. *)
Lemma rgb_not_per_channel_minmax :
  rgb_channels example_frame <> spec_true_color example_frame.
Proof.
  destruct example_frame_code as (v & rest & g & b & Hc & Hv).
  destruct example_frame_spec as (rest' & g' & b' & Hs).
  rewrite Hc, Hs. intro H. injection H as H _ _ _.
  lra.
Qed.

(** C8: the gamma stage sends 0 to 0 and 1 to 1, and the clamping leaves
    both in place; between 0 and 1 the gamma stage is strictly increasing;
    every value the transform returns is a real of [0,1]. *)
Theorem gamma_stage_endpoints_monotone_range :
  gamma_stage (Fin 0) = Fin 0 /\
  gamma_stage (Fin 1) = Fin 1 /\
  clamp (gamma_stage (Fin 0)) = Fin 0 /\
  clamp (gamma_stage (Fin 1)) = Fin 1 /\
  (forall x y, 0 < x -> x < y -> y < 1 ->
     exists u w,
       gamma_stage (Fin x) = Fin u /\ gamma_stage (Fin y) = Fin w /\
       u < w) /\
  (forall m x, exists r, render_value m x = Fin r /\ 0 <= r <= 1) /\
  (forall p f, exists out,
     rgb_frame (p :: f) = Some out /\
     Forall (fun q =>
               Forall (fun v => exists r, v = Fin r /\ 0 <= r <= 1)
                      (px_values q))
            out).
Proof.
  split; [apply gamma_stage_zero|].
  split; [apply gamma_stage_one|].
  split.
  { rewrite gamma_stage_zero, clamp_Fin.
    destruct (Rlt_dec 0 0); [lra|reflexivity]. }
  split.
  { rewrite gamma_stage_one, clamp_Fin.
    destruct (Rlt_dec 0 1); [|lra].
    destruct (Rlt_dec 1 1); [lra|reflexivity]. }
  split.
  { intros x y Hx Hxy Hy.
    exists (Rpower x (1 / gamma)), (Rpower y (1 / gamma)).
    rewrite !gamma_stage_pos by lra.
    repeat split. apply Rlt_Rpower_l; [apply inv_gamma_pos|lra]. }
  split.
  { intros m x. apply clamp_range. }
  intros p f. destruct (rgb_frame_cons p f) as (m & _ & ->).
  eexists. split; [reflexivity|].
  apply Forall_map. apply Forall_forall. intros q _.
  unfold px_values, map_px. simpl.
  repeat constructor; apply clamp_range.
Qed.

Lemma gamma_stage_endpoints_monotone_range_witness :
  exists u w,
    gamma_stage (Fin (1 / 4)) = Fin u /\
    gamma_stage (Fin (1 / 2)) = Fin w /\ u < w.
Proof.
  destruct gamma_stage_endpoints_monotone_range
    as (_ & _ & _ & _ & Hmono & _).
  apply (Hmono (1 / 4) (1 / 2)); lra.
Defined.

(** C9: a NaN that reaches the clamping fails the test [x > 0] and is
    replaced by 0, which the second test leaves in place; no value the
    transform returns is NaN. *)
Theorem clamp_nan_is_zero :
  fgt0 FNaN = false /\
  where_other fgt0 (Fin 0) FNaN = Fin 0 /\
  clamp FNaN = Fin 0 /\
  (forall v, clamp v <> FNaN) /\
  (forall p f, exists out,
     rgb_frame (p :: f) = Some out /\
     Forall (fun q => Forall (fun v => v <> FNaN) (px_values q)) out).
Proof.
  assert (Hc : forall v, clamp v <> FNaN).
  { intro v. destruct (clamp_range v) as (r & -> & _). discriminate. }
  split; [reflexivity|]. split; [reflexivity|].
  split.
  { unfold clamp, where_other. simpl.
    destruct (Rlt_dec 0 1); [reflexivity|lra]. }
  split; [exact Hc|].
  intros p f. destruct (rgb_frame_cons p f) as (m & _ & ->).
  eexists. split; [reflexivity|].
  apply Forall_map. apply Forall_forall. intros q _.
  unfold px_values, map_px. simpl.
  repeat constructor; apply Hc.
Qed.

(** C10, as the code has it: the simulated green band is
    0.45 red + 0.1 nir09 + 0.45 blue at every pixel; the weights are not
    negative and sum to 1, so in exact arithmetic the value lies between
    the least and the greatest of the three bands there. *)
Theorem green_between_bands :
  (forall f,
     map ch_green (concat_sel f)
     = map (fun p => 0.45 * red p + 0.1 * nir09 p + 0.45 * blue p) f) /\
  0 <= 0.45 /\ 0 <= 0.1 /\ 0.45 + 0.1 + 0.45 = 1 /\
  (forall p,
     Rmin (red p) (Rmin (nir09 p) (blue p)) <= green p
     <= Rmax (red p) (Rmax (nir09 p) (blue p))).
Proof.
  split.
  { intro f. unfold concat_sel. rewrite map_map. reflexivity. }
  split; [lra|]. split; [lra|]. split; [lra|].
  intros [r n b]. unfold green. simpl.
  unfold Rmin, Rmax.
  destruct (Rle_dec n b), (Rle_dec r n), (Rle_dec r b); lra.
Qed.

(** C10, as the claim words it: in binary64 the three products are rounded,
    and at a pixel whose three bands are all 63 the simulated green value
    is above 63, the greatest of the three. *)
Lemma green_f64_above_max :
  PrimFloat.ltb 63%float (green_f64 63 63 63) = true.
Proof. vm_compute. reflexivity. Qed.

(** ** More on the rendering *)

Lemma green_scale (k : R) (p : pixel) :
  green (mkPixel (k * red p) (k * nir09 p) (k * blue p)) = k * green p.
Proof. unfold green. simpl. ring. Qed.

Lemma concat_sel_scale (k : R) (f : frame) :
  concat_sel (scale_frame k f) = map (map_px (Rmult k)) (concat_sel f).
Proof.
  unfold concat_sel, scale_frame. rewrite !map_map. apply map_ext.
  intro p. unfold map_px. simpl. now rewrite green_scale.
Qed.

Lemma fold_left_Rmax_scale (k : R) (t : list R) (x : R) :
  0 <= k ->
  fold_left Rmax (map (Rmult k) t) (k * x) = k * fold_left Rmax t x.
Proof.
  intro Hk. revert x. induction t as [|h t IH]; intro x; simpl.
  - reflexivity.
  - rewrite RmaxRmult by exact Hk. apply IH.
Qed.

Lemma frame_max_scale (k : R) (c : list (rgb_px R)) :
  0 <= k ->
  frame_max (map (map_px (Rmult k)) c) = option_map (Rmult k) (frame_max c).
Proof.
  intro Hk. unfold frame_max.
  assert (E : flat_map px_values (map (map_px (Rmult k)) c)
              = map (Rmult k) (flat_map px_values c)).
  { induction c as [|q c IH]; simpl; [reflexivity|]. now rewrite IH. }
  rewrite E. destruct (flat_map px_values c) as [|x t]; simpl.
  - reflexivity.
  - now rewrite fold_left_Rmax_scale.
Qed.

Lemma fdiv_scale (k x m : R) : 0 < k -> fdiv (k * x) (k * m) = fdiv x m.
Proof.
  intro Hk. unfold fdiv.
  destruct (Req_dec_T m 0) as [->|Hm].
  - rewrite Rmult_0_r. destruct (Req_dec_T 0 0); [|lra].
    destruct (Req_dec_T x 0) as [->|Hx].
    + rewrite Rmult_0_r. destruct (Req_dec_T 0 0); [reflexivity|lra].
    + destruct (Req_dec_T (k * x) 0) as [E|_]; [nra|].
      destruct (Rlt_dec 0 x), (Rlt_dec 0 (k * x)); try reflexivity; nra.
  - destruct (Req_dec_T (k * m) 0) as [E|_]; [nra|].
    f_equal. field. split; lra.
Qed.

(** X10: the rendering of a time step does not change when all its
    raster values are multiplied by one positive factor. *)
Theorem rgb_frame_scale_invariant (k : R) (f : frame) :
  0 < k -> rgb_frame (scale_frame k f) = rgb_frame f.
Proof.
  intro Hk. unfold rgb_frame.
  rewrite concat_sel_scale, frame_max_scale by lra.
  destruct (frame_max (concat_sel f)) as [m|]; simpl; [|reflexivity].
  f_equal. rewrite map_map. apply map_ext. intro q.
  unfold map_px, render_value. simpl.
  now rewrite !fdiv_scale by exact Hk.
Qed.

Lemma rgb_frame_scale_invariant_witness :
  rgb_frame (scale_frame 2 example_frame) = rgb_frame example_frame.
Proof.
  apply (rgb_frame_scale_invariant 2 example_frame). lra.
Defined.

Lemma render_value_le (m v w : R) :
  0 < m -> v <= w -> w <= m ->
  exists rv rw,
    render_value m v = Fin rv /\ render_value m w = Fin rw /\ rv <= rw.
Proof.
  intros Hm Hvw Hw.
  rewrite (render_value_closed_form m v) by lra.
  rewrite (render_value_closed_form m w) by lra.
  do 2 eexists. split; [reflexivity|]. split; [reflexivity|].
  pose proof (Rinv_0_lt_compat m Hm) as Hinv.
  destruct (Rle_dec v 0), (Rle_dec w 0); try lra.
  - left. apply Rpower_pos.
  - apply Rle_Rpower_l; [pose proof inv_gamma_pos; lra|].
    unfold Rdiv. split; nra.
Qed.

Lemma render_value_max (m : R) : 0 < m -> render_value m m = Fin 1.
Proof.
  intro Hm. rewrite render_value_closed_form by lra.
  destruct (Rle_dec m 0); [lra|].
  replace (m / m) with 1 by (field; lra).
  now rewrite Rpower_one_base.
Qed.

Lemma px_values_map_px {A B : Type} (g : A -> B) (q : rgb_px A) :
  px_values (map_px g q) = map g (px_values q).
Proof. reflexivity. Qed.

(** X11: in a time step whose maximum is positive, a greatest raster
    value is rendered as 1 and the rendering keeps the order of the
    raster values. *)
Theorem rgb_frame_brightest_and_order (p : pixel) (f : frame) :
  exists m out,
    frame_max (concat_sel (p :: f)) = Some m /\
    rgb_frame (p :: f) = Some out /\
    (0 < m ->
     (exists q, In q out /\ In (Fin 1) (px_values q)) /\
     (forall v w,
        In v (flat_map px_values (concat_sel (p :: f))) ->
        In w (flat_map px_values (concat_sel (p :: f))) ->
        v <= w ->
        exists rv rw,
          render_value m v = Fin rv /\ render_value m w = Fin rw /\
          rv <= rw)).
Proof.
  destruct (rgb_frame_cons p f) as (m & Hmax & Hrgb).
  destruct (list_max_spec _ _ Hmax) as [Hin Hall].
  exists m. eexists. split; [exact Hmax|]. split; [exact Hrgb|].
  intro Hm. split.
  - apply in_flat_map in Hin as (q & Hq & Hmq).
    exists (map_px (render_value m) q). split; [now apply in_map|].
    rewrite px_values_map_px, <- (render_value_max m Hm).
    now apply in_map.
  - intros v w _ Hw Hvw. rewrite Forall_forall in Hall.
    apply render_value_le; [exact Hm|exact Hvw|now apply Hall].
Qed.

Lemma render_value_neg_max (m x : R) :
  m < 0 -> x <= m -> render_value m x = Fin 1.
Proof.
  intros Hm Hx. unfold render_value, fdiv.
  destruct (Req_dec_T m 0); [lra|].
  assert (Hinv : / m < 0) by now apply Rinv_lt_0_compat.
  assert (Hone : m * / m = 1) by (apply Rinv_r; lra).
  assert (Hq : 1 <= x / m) by (unfold Rdiv; nra).
  rewrite gamma_stage_pos by lra. rewrite clamp_Fin.
  assert (Hp : 1 <= Rpower (x / m) (1 / gamma)).
  { pose proof inv_gamma_pos as Hg.
    pose proof (Rle_Rpower_l 1 (x / m) (1 / gamma)
                  ltac:(lra) ltac:(lra)) as H.
    now rewrite Rpower_one_base in H. }
  destruct (Rlt_dec 0 (Rpower (x / m) (1 / gamma))); [|lra].
  destruct (Rlt_dec (Rpower (x / m) (1 / gamma)) 1); [lra|reflexivity].
Qed.

Lemma render_value_zero_zero : render_value 0 0 = Fin 0.
Proof.
  unfold render_value, fdiv.
  destruct (Req_dec_T 0 0); [|lra].
  unfold gamma_stage, fpow, clamp, where_other. simpl.
  destruct (Rlt_dec 0 1); [reflexivity|lra].
Qed.

(** X12: a time step whose raster values are all negative is rendered as
    1 everywhere, and one whose raster values are all 0 is rendered as 0
    everywhere. *)
Theorem rgb_frame_degenerate (p : pixel) (f : frame) :
  (Forall (fun q => red q < 0 /\ nir09 q < 0 /\ blue q < 0) (p :: f) ->
   rgb_frame (p :: f)
   = Some (map (fun _ => mkRGB (Fin 1) (Fin 1) (Fin 1)) (p :: f))) /\
  (Forall (fun q => red q = 0 /\ nir09 q = 0 /\ blue q = 0) (p :: f) ->
   rgb_frame (p :: f)
   = Some (map (fun _ => mkRGB (Fin 0) (Fin 0) (Fin 0)) (p :: f))).
Proof.
  destruct (rgb_frame_cons p f) as (m & Hmax & Hrgb).
  destruct (list_max_spec _ _ Hmax) as [Hin Hall].
  rewrite Hrgb. unfold concat_sel. rewrite map_map.
  rewrite Forall_forall in Hall.
  assert (Hval : forall q v, In q (p :: f) ->
            In v [red q; green q; blue q] ->
            In v (flat_map px_values (concat_sel (p :: f)))).
  { intros q v Hq Hv. apply in_flat_map.
    exists (mkRGB (red q) (green q) (blue q)). split; [|exact Hv].
    unfold concat_sel. apply in_map_iff. now exists q. }
  split; intro H; rewrite Forall_forall in H; f_equal.
  - assert (Hm : m < 0).
    { apply in_flat_map in Hin as (c & Hc & Hmc).
      unfold concat_sel in Hc. apply in_map_iff in Hc as (q & <- & Hq).
      specialize (H q Hq). unfold green in Hmc. simpl in Hmc.
      destruct Hmc as [<-|[<-|[<-|[]]]]; lra. }
    apply map_ext_in. intros q Hq. unfold map_px. simpl.
    rewrite !render_value_neg_max; try exact Hm; try reflexivity;
      apply Hall, (Hval q); simpl; auto.
  - assert (Hz : forall q, In q (p :: f) ->
              red q = 0 /\ green q = 0 /\ blue q = 0).
    { intros q Hq. specialize (H q Hq). unfold green. lra. }
    assert (Hm : m = 0).
    { apply in_flat_map in Hin as (c & Hc & Hmc).
      unfold concat_sel in Hc. apply in_map_iff in Hc as (q & <- & Hq).
      specialize (Hz q Hq). simpl in Hmc.
      destruct Hmc as [<-|[<-|[<-|[]]]]; lra. }
    subst m. apply map_ext_in. intros q Hq. unfold map_px. simpl.
    destruct (Hz q Hq) as (-> & -> & ->).
    now rewrite render_value_zero_zero.
Qed.

Lemma rgb_frame_degenerate_witness :
  rgb_frame [mkPixel (-1) (-3) (-2)]
  = Some (map (fun _ => mkRGB (Fin 1) (Fin 1) (Fin 1))
              [mkPixel (-1) (-3) (-2)]).
Proof.
  apply (proj1 (rgb_frame_degenerate (mkPixel (-1) (-3) (-2)) [])).
  repeat constructor; simpl; lra.
Defined.
